(** * FlowForge Nexus: workflow registry validation, workflow engine and
    saga engine, embedded as executable Rocq definitions.

    Sources embedded here:
    - [src/unnamed/part_001]  (types: WorkflowDefinition, WorkflowStep, ...)
    - [src/unnamed/part_002]  (WorkflowRegistry: validateWorkflow,
                               hasCircularDependencies, findOrphanedSteps)
    - [src/src/core/workflow-engine.ts]  (WorkflowEngine)
    - [src/src/sagas/saga-engine.ts]     (SagaEngine)

    Conventions.  A JavaScript string is the [string] of the bytes of its
    UTF-8 encoding (which is also how a string literal of this file is
    read); a [Record<string, any>] is the record [Data] below; JavaScript [Map]s are [gmap]s; an optional
    field [f?: T] is an [option T]; an exception is the message of the
    thrown [Error].  External collaborators (step runner, state store,
    compensation runner, clock, id generator) are oracles passed in as
    functions. *)

From Stdlib Require Import ZArith Ascii String List Lia.
From stdpp Require Import base option list strings gmap relations.

Local Open Scope string_scope.
Local Open Scope list_scope.

#[local] Set Warnings "-clear-no-such-hyp".

(* ===================================================================== *)
(** ** Data model ([src/unnamed/part_001]) *)
(* ===================================================================== *)

(** [Record<string, any>].  The only key the engines read back is
    [completedSteps], which [getCompletedSteps] declares to be a
    [string[]]; every other key is an opaque payload. *)
Record Data := mkData {
  completedSteps : option (list string);
  fields : gmap string string
}.

Definition emptyData : Data := mkData None ∅.

(** [{ ...a, ...b }]: keys of [b] win. *)
Definition spread (a b : Data) : Data :=
  mkData (match completedSteps b with
          | Some l => Some l
          | None => completedSteps a
          end)
         (fields b ∪ fields a).

Inductive StepType := action | condition | loop | parallel | delay.

Inductive Backoff := fixed | exponential | linear.

Record RetryPolicy := mkRetryPolicy {
  maxAttempts : nat;
  backoff : Backoff;
  retry_delay : Z;
  maxDelay : option Z
}.

(** [WorkflowStep].  The interface does not declare [dependencies], but
    [WorkflowEngine.findPendingSteps] reads [step.dependencies], so the
    field is carried as an optional one.  The interface declares [type] and
    [config] as required, but steps are read back from a JSON column and
    [WorkflowRegistry.validateWorkflow] tests [!step.type] and
    [!step.config]: both are carried as options, [None] standing for a
    falsy value (absent, [null], the empty string). *)
Record WorkflowStep := mkStep {
  step_id : string;
  step_name : string;
  step_type : option StepType;
  step_config : option Data;
  step_next : option (list string);
  errorHandler : option string;
  retryPolicy : option RetryPolicy;
  dependencies : option (list string)
}.

Record WorkflowTrigger := mkTrigger {
  trigger_type : string;
  eventType : string;
  filters : option Data;
  conditions : option (list string)
}.

Record WorkflowDefinition := mkWorkflow {
  wf_id : string;
  wf_name : string;
  wf_version : string;
  triggers : list WorkflowTrigger;
  steps : list WorkflowStep;
  wf_metadata : Data
}.

Record ValidationResult := mkValidation {
  isValid : bool;
  errors : list string;
  warnings : list string
}.

Record Event := mkEvent {
  event_id : string;
  event_type : string;
  event_data : Data
}.

Inductive ExecStatus :=
  pending | running | completed | failed | cancelled.

Record WorkflowExecution := mkExecution {
  exec_id : string;
  workflowId : string;
  status : ExecStatus;
  currentStep : option string;
  context : Data;
  exec_error : option string;
  startedAt : Z;
  completedAt : option Z;
  duration : option Z
}.

Record StepResult := mkResult {
  success : bool;
  result_data : option Data;
  result_error : option string;
  nextSteps : option (list string)
}.

(** JavaScript truthiness of a string: only the empty string is falsy. *)
Definition truthy (s : string) : bool :=
  match s with EmptyString => false | _ => true end.

Definition truthy_opt (o : option string) : bool :=
  match o with Some s => truthy s | None => false end.

(** [Array.prototype.find] with an id predicate. *)
Definition find_step (sid : string) (l : list WorkflowStep) : option WorkflowStep :=
  List.find (fun s => bool_decide (step_id s = sid)) l.

(** [Array.prototype.includes] on a [string[]]. *)
Definition includes (l : list string) (x : string) : bool :=
  bool_decide (x ∈ l).

(* ===================================================================== *)
(** ** Asynchronous routines over a mutable engine state *)
(* ===================================================================== *)

(** Result of an [async] routine: it returns, it throws, or the fuel of the
    model ran out before it did either. *)
Inductive Res (A : Type) :=
| Returned (a : A)
| Thrown (message : string)
| Stalled.
Arguments Returned {A} a.
Arguments Thrown {A} message.
Arguments Stalled {A}.

Definition Async (S A : Type) : Type := S → Res A * S.

Section Async.

Context {S : Type}.

Definition ret {A} (a : A) : Async S A := λ w, (Returned a, w).

Definition bind {A B} (m : Async S A) (k : A → Async S B) : Async S B :=
  λ w, match m w with
       | (Returned a, w') => k a w'
       | (Thrown e, w') => (Thrown e, w')
       | (Stalled, w') => (Stalled, w')
       end.

Definition throw {A} (message : string) : Async S A := λ w, (Thrown message, w).

Definition stalled {A} : Async S A := λ w, (Stalled, w).

(** [try { body } catch (error) { handler }] *)
Definition try_catch {A} (body : Async S A) (handler : string → Async S A)
  : Async S A :=
  λ w, match body w with
       | (Thrown e, w') => handler e w'
       | other => other
       end.

(** [try { body } finally { cleanup }], for a [cleanup] that cannot throw. *)
Definition try_finally {A} (body : Async S A) (cleanup : S → S) : Async S A :=
  λ w, match body w with
       | (Stalled, w') => (Stalled, w')
       | (res, w') => (res, cleanup w')
       end.

Definition gets {A} (f : S → A) : Async S A := λ w, (Returned (f w), w).

Definition modify (f : S → S) : Async S unit := λ w, (Returned tt, f w).

(** [wp m w Q]: running [m] from state [w] ends with a result and a state
    that satisfy [Q]. *)
Definition wp {A} (m : Async S A) (w : S) (Q : Res A → S → Prop) : Prop :=
  Q (fst (m w)) (snd (m w)).

End Async.

Notation "'let*' x ':=' m 'in' k" := (bind m (λ x, k))
  (at level 10, x name, m at level 100, k at level 200).
Notation "m ;;; k" := (bind m (λ _, k))
  (at level 100, k at level 200, right associativity).

Fixpoint for_each {S A} (l : list A) (body : A → Async S unit) : Async S unit :=
  match l with
  | [] => ret tt
  | x :: rest => body x ;;; for_each rest body
  end.

(* ===================================================================== *)
(** ** WorkflowRegistry validation ([src/unnamed/part_002]) *)
(* ===================================================================== *)

Module WorkflowRegistry.

(** The code points removed by [String.prototype.trim] (the WhiteSpace and
    LineTerminator productions of ECMAScript), each given by the bytes of
    its UTF-8 encoding:
    - one byte: U+0009 TAB, U+000A LF, U+000B VT, U+000C FF, U+000D CR
      and U+0020 SPACE;
    - two bytes: U+00A0 NO-BREAK SPACE (C2 A0);
    - three bytes: U+1680 (E1 9A 80), U+2000 to U+200A (E2 80 80 to
      E2 80 8A), U+2028 LINE SEPARATOR (E2 80 A8), U+2029 PARAGRAPH
      SEPARATOR (E2 80 A9), U+202F (E2 80 AF), U+205F (E2 81 9F),
      U+3000 (E3 80 80) and U+FEFF (EF BB BF). *)
Definition is_space (encoding : list N) : bool :=
  match encoding with
  | [a] => (a =? 0x20) || (0x09 <=? a) && (a <=? 0x0D)
  | [a; b] => (a =? 0xC2) && (b =? 0xA0)
  | [a; b; c] =>
      (a =? 0xE1) && (b =? 0x9A) && (c =? 0x80)
      || (a =? 0xE2) && (b =? 0x80) &&
         ((0x80 <=? c) && (c <=? 0x8A) || (c =? 0xA8) || (c =? 0xA9) || (c =? 0xAF))
      || (a =? 0xE2) && (b =? 0x81) && (c =? 0x9F)
      || (a =? 0xE3) && (b =? 0x80) && (c =? 0x80)
      || (a =? 0xEF) && (b =? 0xBB) && (c =? 0xBF)
  | _ => false
  end%N%bool.

(** [s.trim().length === 0]: the string consists of such code points only.
    The first byte of a UTF-8 encoding fixes its length, so the code points
    are read off from the front. *)
Fixpoint all_space (s : string) : bool :=
  match s with
  | EmptyString => true
  | String a r1 =>
      if is_space [N_of_ascii a] then all_space r1 else
      match r1 with
      | EmptyString => false
      | String b r2 =>
          if is_space [N_of_ascii a; N_of_ascii b] then all_space r2 else
          match r2 with
          | EmptyString => false
          | String c r3 =>
              (is_space [N_of_ascii a; N_of_ascii b; N_of_ascii c] && all_space r3)%bool
          end
      end
  end.

(** [!s || s.trim().length === 0] *)
Definition missing (s : string) : bool := (negb (truthy s) || all_space s)%bool.

(** The elements of [new Set(l)] in iteration (first insertion) order. *)
Definition set_order (l : list string) : list string :=
  fold_left (fun acc x => if includes acc x then acc else acc ++ [x]) l [].

(** [hasCircularDependencies]: the body is the constant [false]. *)
Definition hasCircularDependencies (workflow : WorkflowDefinition) : bool := false.

(** The [referencedSteps] set built by [findOrphanedSteps]: every entry of
    every [next] list, then every trigger's [type]. *)
Definition referencedSteps (workflow : WorkflowDefinition) : gset string :=
  let from_next :=
    fold_left
      (fun (acc : gset string) step =>
         match step_next step with
         | Some nx => fold_left (fun (a : gset string) n => a ∪ {[ n ]}) nx acc
         | None => acc
         end)
      (steps workflow) (∅ : gset string) in
  fold_left (fun (acc : gset string) t => acc ∪ {[ trigger_type t ]})
            (triggers workflow) from_next.

Definition findOrphanedSteps (workflow : WorkflowDefinition) : list string :=
  let referenced := referencedSteps workflow in
  let allSteps := set_order (map step_id (steps workflow)) in
  List.filter (fun stepId => negb (bool_decide (stepId ∈ referenced))) allSteps.

Definition trigger_errors (t : WorkflowTrigger) : list string :=
  (if missing (trigger_type t) then ["Trigger type is required"] else []) ++
  (if missing (eventType t) then ["Event type is required for trigger"] else []).

(** [!step.type] and [!step.config]: the five literals of [StepType] are
    non-empty strings and an object is truthy, so only [None] is falsy. *)
Definition falsy {A} (o : option A) : bool :=
  match o with Some _ => false | None => true end.

Definition step_errors (s : WorkflowStep) : list string :=
  (if missing (step_id s) then ["Step ID is required"] else []) ++
  (if missing (step_name s) then ["Step name is required"] else []) ++
  (if falsy (step_type s) then ["Step type is required"] else []) ++
  (if falsy (step_config s) then ["Step configuration is required"] else []).

Definition join (sep : string) (l : list string) : string := String.concat sep l.

Definition validateWorkflow (workflow : WorkflowDefinition) : ValidationResult :=
  let errs :=
    (if missing (wf_name workflow) then ["Workflow name is required"] else []) ++
    (if missing (wf_version workflow) then ["Workflow version is required"] else []) ++
    (match triggers workflow with [] => ["At least one trigger is required"] | _ => [] end) ++
    (match steps workflow with [] => ["At least one step is required"] | _ => [] end) ++
    concat (map trigger_errors (triggers workflow)) ++
    concat (map step_errors (steps workflow)) ++
    (if hasCircularDependencies workflow
     then ["Workflow contains circular dependencies"] else []) in
  let orphanedSteps := findOrphanedSteps workflow in
  let warns :=
    match orphanedSteps with
    | [] => []
    | _ => ["Orphaned steps found: " +:+ join ", " orphanedSteps]
    end in
  mkValidation (bool_decide (errs = [])) errs warns.

(** The step graph: [a] points to [b] when [b] is listed in [a]'s [next],
    or when [b] lists [a] among its [dependencies] (so [a] must run before
    [b]). *)
Definition edge (workflow : WorkflowDefinition) (a b : string) : Prop :=
  (∃ s nx, s ∈ steps workflow ∧ step_id s = a ∧ step_next s = Some nx ∧ b ∈ nx) ∨
  (∃ s ds, s ∈ steps workflow ∧ step_id s = b ∧ dependencies s = Some ds ∧ a ∈ ds).

Definition cyclic (workflow : WorkflowDefinition) : Prop :=
  ∃ a, tc (edge workflow) a a.

Definition acyclic (workflow : WorkflowDefinition) : Prop := ¬ cyclic workflow.

End WorkflowRegistry.

(* ===================================================================== *)
(** ** WorkflowEngine ([src/src/core/workflow-engine.ts]) *)
(* ===================================================================== *)

Module WorkflowEngine.

(** Lifecycle notifications sent through [eventEmitter.emit]. *)
Inductive Notification :=
| ExecutionStarted (executionId : string)
| ExecutionCompleted (executionId : string)
| ExecutionFailed (executionId : string) (message : string)
| ExecutionCancelled (executionId : string).

(** The optional [input] argument of [executeStep]: the trigger event for
    start steps, [{ error }] for error handlers. *)
Inductive StepInput :=
| InEvent (e : Event)
| InError (message : string).

(** [data: input || execution.context] as the step runner receives it. *)
Inductive RunnerData :=
| OfInput (i : StepInput)
| OfContext (d : Data).

Record WorkflowContext := mkContext {
  ctx_executionId : string;
  ctx_workflowId : string;
  ctx_stepId : string;
  ctx_data : RunnerData
}.

(** What happens while one [executeStep] try-block is suspended:
    - [ran]: [stepExecutor.execute] resolves with a result or rejects;
    - [saved]: [stateManager.saveExecutionState] resolves ([None]) or
      rejects with a message;
    - [cancels]: the [cancelExecution(id)] calls served by the engine while
      the step runner call is in flight;
    - [elapsed]: how far the clock moved meanwhile. *)
Record Outcome := mkOutcome {
  ran : StepResult + string;
  saved : option string;
  cancels : list string;
  elapsed : Z
}.

(** The [try] block of [executeStep] throws [message]: the step runner
    rejects, or it resolves and saving the state rejects. *)
Definition rejects (o : Outcome) (message : string) : Prop :=
  ran o = inr message ∨ ∃ result, ran o = inl result ∧ saved o = Some message.

(** Engine state.  Execution records are JavaScript objects: [heap] maps a
    reference to the object it denotes, [executions] is the
    [Map<string, WorkflowExecution>] of references. *)
Record Engine := mkEngine {
  heap : nat → WorkflowExecution;
  nextRef : nat;
  executions : gmap string nat;
  emitted : list Notification;
  runnerCalls : list (string * RunnerData);
  idsAllocated : nat;
  now : Z
}.

Abbreviation M := (Async Engine).

(** Field assignments on an execution object. *)
Definition set_status (s : ExecStatus) (e : WorkflowExecution) :=
  mkExecution (exec_id e) (workflowId e) s (currentStep e) (context e)
              (exec_error e) (startedAt e) (completedAt e) (duration e).
Definition set_currentStep (c : string) (e : WorkflowExecution) :=
  mkExecution (exec_id e) (workflowId e) (status e) (Some c) (context e)
              (exec_error e) (startedAt e) (completedAt e) (duration e).
Definition set_context (d : Data) (e : WorkflowExecution) :=
  mkExecution (exec_id e) (workflowId e) (status e) (currentStep e) d
              (exec_error e) (startedAt e) (completedAt e) (duration e).
Definition set_error (m : string) (e : WorkflowExecution) :=
  mkExecution (exec_id e) (workflowId e) (status e) (currentStep e) (context e)
              (Some m) (startedAt e) (completedAt e) (duration e).
Definition set_completedAt (t : Z) (e : WorkflowExecution) :=
  mkExecution (exec_id e) (workflowId e) (status e) (currentStep e) (context e)
              (exec_error e) (startedAt e) (Some t) (duration e).
Definition set_duration (d : Z) (e : WorkflowExecution) :=
  mkExecution (exec_id e) (workflowId e) (status e) (currentStep e) (context e)
              (exec_error e) (startedAt e) (completedAt e) (Some d).

Definition with_heap (h : nat → WorkflowExecution) (w : Engine) :=
  mkEngine h (nextRef w) (executions w) (emitted w) (runnerCalls w)
           (idsAllocated w) (now w).

(** [execution.<field> = ...] through the reference [r]. *)
Definition assign (r : nat) (f : WorkflowExecution → WorkflowExecution) : M unit :=
  modify (λ w, with_heap (λ r', if Nat.eqb r' r then f (heap w r) else heap w r') w).

Definition deref (r : nat) : M WorkflowExecution := gets (λ w, heap w r).

Definition emit (n : Notification) : M unit :=
  modify (λ w, mkEngine (heap w) (nextRef w) (executions w) (emitted w ++ [n])
                        (runnerCalls w) (idsAllocated w) (now w)).

(** [new Date()] *)
Definition newDate : M Z := gets now.

Definition advance (dt : Z) : M unit :=
  modify (λ w, mkEngine (heap w) (nextRef w) (executions w) (emitted w)
                        (runnerCalls w) (idsAllocated w) (now w + dt)%Z).

Definition cancelExecution (executionId : string) : M unit :=
  let* map_ref := gets (λ w, executions w !! executionId) in
  match map_ref with
  | Some r =>
      let* execution := deref r in
      match status execution with
      | running =>
          assign r (set_status cancelled) ;;;
          let* t := newDate in
          assign r (set_completedAt t) ;;;
          emit (ExecutionCancelled executionId)
      | _ => ret tt
      end
  | None => ret tt
  end.

Definition getExecution (executionId : string) : M (option WorkflowExecution) :=
  gets (λ w, heap w <$> executions w !! executionId).

(** [evaluateTriggerConditions]: every condition evaluates to [true]. *)
Definition evaluateTriggerConditions (trigger : WorkflowTrigger) (event : Event) : bool :=
  match conditions trigger with
  | None => true
  | Some cs => forallb (λ _, true) cs
  end.

Definition findStartSteps (definition : WorkflowDefinition) (triggerEvent : Event)
  : list string :=
  map trigger_type
      (List.filter (λ trigger,
                 bool_decide (eventType trigger = event_type triggerEvent)
                 && evaluateTriggerConditions trigger triggerEvent)
              (triggers definition)).

(** [execution.context.completedSteps || []] *)
Definition getCompletedSteps (execution : WorkflowExecution) : list string :=
  default [] (completedSteps (context execution)).

Definition findPendingSteps (execution : WorkflowExecution)
           (definition : WorkflowDefinition) : list string :=
  let completed := getCompletedSteps execution in
  let allSteps := map step_id (steps definition) in
  List.filter
    (λ stepId,
       match find_step stepId (steps definition) with
       | None => false
       | Some step =>
           match dependencies step with
           | Some deps => forallb (λ dep, includes completed dep) deps
           | None => true
           end
       end)
    allSteps.

(** [canExecuteStep]: the body is the constant [true]. *)
Definition canExecuteStep (step : WorkflowStep) (execution : WorkflowExecution) : bool :=
  true.

Section Collaborators.

(** [workflowRegistry.getWorkflow]: rejects ([inl]) or resolves with a
    definition or [null]. *)
Variable getWorkflow : string → string + option WorkflowDefinition.
(** [validator.validateWorkflow] *)
Variable validateWorkflow : WorkflowDefinition → ValidationResult.
(** The step runner and state store, by number of calls made so far. *)
Variable runner : nat → WorkflowStep → WorkflowContext → Outcome.
(** [generateExecutionId], by number of ids generated so far. *)
Variable generateExecutionId : nat → string.

Definition log_call (stepId : string) (d : RunnerData) : M unit :=
  modify (λ w, mkEngine (heap w) (nextRef w) (executions w) (emitted w)
                        (runnerCalls w ++ [(stepId, d)]) (idsAllocated w) (now w)).

(** [data: input || execution.context] *)
Definition runnerData (input : option StepInput) (execution : WorkflowExecution)
  : RunnerData :=
  match input with
  | Some i => OfInput i
  | None => OfContext (context execution)
  end.

(** What the next call [stepExecutor.execute(step, { ... })] will meet. *)
Definition outcome_of (r : nat) (step : WorkflowStep) (stepId : string)
           (input : option StepInput) (w : Engine) : Outcome :=
  let execution := heap w r in
  runner (length (runnerCalls w)) step
         (mkContext (exec_id execution) (workflowId execution) stepId
                    (runnerData input execution)).

(** The body of the [try] block of [executeStep]. *)
Definition runStep (r : nat) (step : WorkflowStep) (stepId : string)
           (input : option StepInput) : M StepResult :=
  let* o := gets (outcome_of r step stepId input) in
  let* data := gets (λ w, runnerData input (heap w r)) in
  log_call stepId data ;;;
  advance (elapsed o) ;;;
  for_each (cancels o) cancelExecution ;;;
  match ran o with
  | inr message => throw message
  | inl result =>
      (match result_data result with
       | Some d => assign r (λ e, set_context (spread (context e) d) e)
       | None => ret tt
       end) ;;;
      match saved o with
      | Some message => throw message
      | None => ret result
      end
  end.

(** [handleStepError], with the recursive call to [executeStep] passed
    in as [executeStep]. *)
Definition handleStepError
           (executeStep : nat → WorkflowDefinition → string → option StepInput → M StepResult)
           (r : nat) (definition : WorkflowDefinition) (step : WorkflowStep)
           (error : string) : M StepResult :=
  match errorHandler step with
  | Some h =>
      match find_step h (steps definition) with
      | Some _ => executeStep r definition h (Some (InError error))
      | None => ret (mkResult false None (Some error) None)
      end
  | None => ret (mkResult false None (Some error) None)
  end.

Fixpoint executeStep (fuel : nat) (r : nat) (definition : WorkflowDefinition)
         (stepId : string) (input : option StepInput) : M StepResult :=
  match fuel with
  | O => stalled
  | S fuel' =>
      match find_step stepId (steps definition) with
      | None =>
          throw ("Step " +:+ stepId +:+ " not found in workflow " +:+ wf_id definition)
      | Some step =>
          assign r (set_currentStep stepId) ;;;
          try_catch
            (runStep r step stepId input)
            (λ error,
               if truthy_opt (errorHandler step)
               then handleStepError (executeStep fuel') r definition step error
               else throw error)
      end
  end.

(** The [while (pendingSteps.length > 0)] loop of [processNextSteps]. *)
Fixpoint drain (fuel : nat) (r : nat) (definition : WorkflowDefinition)
         (pendingSteps : list string) : M unit :=
  match pendingSteps with
  | [] => ret tt
  | stepId :: rest =>
      match fuel with
      | O => stalled
      | S fuel' =>
          let* execution := deref r in
          match find_step stepId (steps definition) with
          | Some step =>
              if canExecuteStep step execution
              then
                let* result := executeStep fuel r definition stepId None in
                drain fuel' r definition (rest ++ default [] (nextSteps result))
              else drain fuel' r definition rest
          | None => drain fuel' r definition rest
          end
      end
  end.

Definition processNextSteps (fuel : nat) (r : nat) (definition : WorkflowDefinition)
  : M unit :=
  let* execution := deref r in
  drain fuel r definition (findPendingSteps execution definition).

Definition finish (r : nat) : M unit :=
  let* t := newDate in
  assign r (set_completedAt t) ;;;
  assign r (λ e, set_duration (t - startedAt e)%Z e).

Definition executeWorkflowSteps (fuel : nat) (r : nat)
           (definition : WorkflowDefinition) (triggerEvent : Event) : M unit :=
  let* execution := deref r in
  try_catch
    (assign r (set_status running) ;;;
     match findStartSteps definition triggerEvent with
     | [] => throw "No matching trigger steps found"
     | startSteps =>
         for_each startSteps
                  (λ step, executeStep fuel r definition step (Some (InEvent triggerEvent))
                           ;;; ret tt) ;;;
         processNextSteps fuel r definition ;;;
         assign r (set_status completed) ;;;
         finish r ;;;
         emit (ExecutionCompleted (exec_id execution))
     end)
    (λ error,
       assign r (set_status failed) ;;;
       assign r (set_error error) ;;;
       finish r ;;;
       emit (ExecutionFailed (exec_id execution) error) ;;;
       throw error).

(** [const execution = { id: generateExecutionId(), ..., startedAt: new Date() }]
    followed by [executions.set(execution.id, execution)]. *)
Definition create (workflowId : string) (context : option Data) : M nat :=
  λ w,
    let eid := generateExecutionId (idsAllocated w) in
    let execution :=
      mkExecution eid workflowId pending None (default emptyData context)
                  None (now w) None None in
    let r := nextRef w in
    (Returned r,
     mkEngine (λ r', if Nat.eqb r' r then execution else heap w r')
              (S r) (<[eid := r]> (executions w)) (emitted w) (runnerCalls w)
              (S (idsAllocated w)) (now w)).

(** [executeWorkflow]; the outer [catch] only logs and rethrows.  The
    returned value is the reference to the execution object. *)
Definition executeWorkflow (fuel : nat) (workflowId : string) (triggerEvent : Event)
           (context : option Data) : M nat :=
  match getWorkflow workflowId with
  | inl message => throw message
  | inr None => throw ("Workflow " +:+ workflowId +:+ " not found")
  | inr (Some definition) =>
      let validation := validateWorkflow definition in
      if negb (isValid validation)
      then throw ("Workflow validation failed: " +:+
                  WorkflowRegistry.join ", " (errors validation))
      else
        let* r := create workflowId context in
        let* execution := deref r in
        emit (ExecutionStarted (exec_id execution)) ;;;
        executeWorkflowSteps fuel r definition triggerEvent ;;;
        ret r
  end.

End Collaborators.

End WorkflowEngine.

(* ===================================================================== *)
(** ** SagaEngine ([src/src/sagas/saga-engine.ts]) *)
(* ===================================================================== *)

Module SagaEngine.

Inductive Strategy := forward | backward | mixed.

Record CompensationPolicy := mkPolicy {
  strategy : Strategy;
  maxCompensations : nat;
  parallelCompensation : bool
}.

Record SagaStep := mkSagaStep {
  id : string;
  name : string;
  action : string;
  compensation : option string;
  dependencies : option (list string);
  timeout : option Z
}.

Record SagaDefinition := mkSaga {
  saga_id : string;
  saga_name : string;
  steps : list SagaStep;
  compensationPolicy : CompensationPolicy
}.

Inductive SagaStatus :=
  running | completed | failed | compensated | compensation_failed | cancelled.

Record FailedStep := mkFailed {
  failed_stepId : string;
  failed_stepName : string;
  failed_error : string;
  failed_timestamp : Z
}.

(** The [executionContext] object literal of [startSaga]. *)
Record SagaContext := mkSagaContext {
  sagaId : string;
  sagaName : string;
  status : SagaStatus;
  currentStep : nat;
  data : Data;
  completedSteps : list string;
  failedSteps : list FailedStep;
  startTime : Z;
  compensationRequired : bool
}.

Inductive Notification :=
| SagaStarted (executionId : string)
| SagaStepCompleted (executionId stepId : string)
| SagaCompleted (executionId : string)
| SagaFailed (executionId message : string)
| SagaCompensated (executionId failedStepId : string)
| SagaCompensationFailed (executionId failedStepId message : string)
| SagaCancelled (executionId : string).

(** Engine state.  [heap] maps a reference to the context object it
    denotes; [activeSagas] is the [Map<string, any>] of references;
    [stepCalls] and [compensationCalls] record the calls made to the saga
    orchestrator (by step id) and to the compensation manager (by action). *)
Record Engine := mkEngine {
  heap : nat → SagaContext;
  nextRef : nat;
  activeSagas : gmap string nat;
  emitted : list Notification;
  stepCalls : list string;
  compensationCalls : list string;
  idsAllocated : nat;
  now : Z
}.

Abbreviation M := (Async Engine).

Definition set_status (s : SagaStatus) (c : SagaContext) :=
  mkSagaContext (sagaId c) (sagaName c) s (currentStep c) (data c)
                (completedSteps c) (failedSteps c) (startTime c)
                (compensationRequired c).
Definition set_currentStep (i : nat) (c : SagaContext) :=
  mkSagaContext (sagaId c) (sagaName c) (status c) i (data c)
                (completedSteps c) (failedSteps c) (startTime c)
                (compensationRequired c).
Definition set_data (d : Data) (c : SagaContext) :=
  mkSagaContext (sagaId c) (sagaName c) (status c) (currentStep c) d
                (completedSteps c) (failedSteps c) (startTime c)
                (compensationRequired c).
Definition push_completed (sid : string) (c : SagaContext) :=
  mkSagaContext (sagaId c) (sagaName c) (status c) (currentStep c) (data c)
                (completedSteps c ++ [sid]) (failedSteps c) (startTime c)
                (compensationRequired c).
Definition push_failed (f : FailedStep) (c : SagaContext) :=
  mkSagaContext (sagaId c) (sagaName c) (status c) (currentStep c) (data c)
                (completedSteps c) (failedSteps c ++ [f]) (startTime c)
                (compensationRequired c).

Definition assign (r : nat) (f : SagaContext → SagaContext) : M unit :=
  modify (λ w, mkEngine (λ r', if Nat.eqb r' r then f (heap w r) else heap w r')
                        (nextRef w) (activeSagas w) (emitted w) (stepCalls w)
                        (compensationCalls w) (idsAllocated w) (now w)).

Definition deref (r : nat) : M SagaContext := gets (λ w, heap w r).

Definition emit (n : Notification) : M unit :=
  modify (λ w, mkEngine (heap w) (nextRef w) (activeSagas w) (emitted w ++ [n])
                        (stepCalls w) (compensationCalls w) (idsAllocated w) (now w)).

Definition newDate : M Z := gets now.

Definition checkDependencies (dependencies completedSteps : list string) : bool :=
  forallb (λ dep, includes completedSteps dep) dependencies.

(** [step.dependencies && !this.checkDependencies(step.dependencies, completedSteps)] *)
Definition blocked (step : SagaStep) (completedSteps : list string) : bool :=
  match dependencies step with
  | Some deps => negb (checkDependencies deps completedSteps)
  | None => false
  end.

Definition determineCompensationStrategy (policy : CompensationPolicy)
           (executionContext : SagaContext) : Strategy :=
  strategy policy.

Definition find_step (sid : string) (l : list SagaStep) : option SagaStep :=
  List.find (λ s, bool_decide (id s = sid)) l.

Definition cancelSaga (executionId : string) : M unit :=
  let* map_ref := gets (λ w, activeSagas w !! executionId) in
  match map_ref with
  | Some r =>
      let* execution := deref r in
      match status execution with
      | running =>
          assign r (set_status cancelled) ;;;
          emit (SagaCancelled executionId)
      | _ => ret tt
      end
  | None => ret tt
  end.

Definition getSagaExecution (executionId : string) : M (option SagaContext) :=
  gets (λ w, heap w <$> activeSagas w !! executionId).

Section Collaborators.

(** [sagaOrchestrator.executeStep], by number of calls made so far:
    resolves with the step's result or rejects with a message. *)
Variable orchestrator : nat → SagaStep → Data → Data + string.
(** [compensationManager.executeCompensation], by number of calls made so
    far: resolves ([None]) or rejects with a message. *)
Variable compensationManager : nat → string → Data → option string.
(** [generateExecutionId], by number of ids generated so far. *)
Variable generateExecutionId : nat → string.

Definition executeStep (step : SagaStep) (d : Data) : M Data :=
  λ w,
    let w' := mkEngine (heap w) (nextRef w) (activeSagas w) (emitted w)
                       (stepCalls w ++ [id step]) (compensationCalls w)
                       (idsAllocated w) (now w) in
    match orchestrator (length (stepCalls w)) step d with
    | inl result => (Returned result, w')
    | inr message => (Thrown message, w')
    end.

Definition executeCompensation (action : string) (d : Data) : M unit :=
  λ w,
    let w' := mkEngine (heap w) (nextRef w) (activeSagas w) (emitted w)
                       (stepCalls w) (compensationCalls w ++ [action])
                       (idsAllocated w) (now w) in
    match compensationManager (length (compensationCalls w)) action d with
    | None => (Returned tt, w')
    | Some message => (Thrown message, w')
    end.

(** The body shared by the two compensation loops:
    [if (step.compensation) await executeCompensation(step.compensation, data)];
    the inner [catch] only logs and rethrows. *)
Definition compensate (r : nat) (step : SagaStep) : M unit :=
  match compensation step with
  | Some c =>
      if truthy c
      then let* executionContext := deref r in
           executeCompensation c (data executionContext)
      else ret tt
  | None => ret tt
  end.

Definition executeBackwardCompensation (executionId : string)
           (sagaDefinition : SagaDefinition) (r : nat) (failedStep : SagaStep)
  : M unit :=
  let* executionContext := deref r in
  for_each (rev (completedSteps executionContext))
           (λ stepId,
              match find_step stepId (steps sagaDefinition) with
              | Some step => compensate r step
              | None => ret tt
              end).

Definition executeForwardCompensation (executionId : string)
           (sagaDefinition : SagaDefinition) (r : nat) (failedStep : SagaStep)
  : M unit :=
  let* executionContext := deref r in
  for_each (drop (currentStep executionContext + 1) (steps sagaDefinition))
           (compensate r).

Definition handleStepFailure (executionId : string)
           (sagaDefinition : SagaDefinition) (r : nat) (failedStep : SagaStep)
           (error : string) : M unit :=
  try_catch
    (let* executionContext := deref r in
     (match determineCompensationStrategy (compensationPolicy sagaDefinition)
                                          executionContext with
      | backward => executeBackwardCompensation executionId sagaDefinition r failedStep
      | forward => executeForwardCompensation executionId sagaDefinition r failedStep
      | mixed => ret tt
      end) ;;;
     assign r (set_status compensated) ;;;
     emit (SagaCompensated executionId (id failedStep)))
    (λ compensationError,
       assign r (set_status compensation_failed) ;;;
       emit (SagaCompensationFailed executionId (id failedStep) compensationError) ;;;
       throw compensationError).

(** The body of the inner [try] of the step loop. *)
Definition runStep (executionId : string) (r : nat) (step : SagaStep) : M unit :=
  let* executionContext := deref r in
  (if blocked step (completedSteps executionContext)
   then throw ("Dependencies not met for step: " +:+ name step)
   else ret tt) ;;;
  let* result := executeStep step (data executionContext) in
  assign r (λ c, set_data (spread (data c) result) c) ;;;
  assign r (push_completed (id step)) ;;;
  emit (SagaStepCompleted executionId (id step)).

(** The [for (let i = 0; i < steps.length; i++)] loop, from index [i] on
    the remaining steps [rest]; the [break] ends the recursion. *)
Fixpoint step_loop (executionId : string) (sagaDefinition : SagaDefinition)
         (r : nat) (i : nat) (rest : list SagaStep) : M unit :=
  match rest with
  | [] => ret tt
  | step :: rest' =>
      assign r (set_currentStep i) ;;;
      let* continue :=
        try_catch
          (runStep executionId r step ;;; ret true)
          (λ error,
             let* t := newDate in
             assign r (push_failed (mkFailed (id step) (name step) error t)) ;;;
             handleStepFailure executionId sagaDefinition r step error ;;;
             ret false) in
      if continue : bool
      then step_loop executionId sagaDefinition r (S i) rest'
      else ret tt
  end.

Definition delete_active (executionId : string) (w : Engine) : Engine :=
  mkEngine (heap w) (nextRef w) (delete executionId (activeSagas w)) (emitted w)
           (stepCalls w) (compensationCalls w) (idsAllocated w) (now w).

Definition executeSaga (executionId : string) (sagaDefinition : SagaDefinition)
           (r : nat) : M unit :=
  try_finally
    (try_catch
       (step_loop executionId sagaDefinition r 0 (steps sagaDefinition) ;;;
        let* executionContext := deref r in
        match failedSteps executionContext with
        | [] =>
            assign r (set_status completed) ;;;
            emit (SagaCompleted executionId)
        | _ => ret tt
        end)
       (λ error,
          assign r (set_status failed) ;;;
          emit (SagaFailed executionId error) ;;;
          throw error))
    (delete_active executionId).

(** The context object literal, [generateExecutionId] and
    [activeSagas.set(executionId, executionContext)]. *)
Definition create (sagaDefinition : SagaDefinition) (initialData : Data)
  : M (string * nat) :=
  λ w,
    let executionContext :=
      mkSagaContext (saga_id sagaDefinition) (saga_name sagaDefinition)
                    running 0 initialData [] [] (now w) false in
    let executionId := generateExecutionId (idsAllocated w) in
    let r := nextRef w in
    (Returned (executionId, r),
     mkEngine (λ r', if Nat.eqb r' r then executionContext else heap w r')
              (S r) (<[executionId := r]> (activeSagas w)) (emitted w)
              (stepCalls w) (compensationCalls w) (S (idsAllocated w)) (now w)).

(** [startSaga] returns the execution id; the model returns with it the
    reference of the context object, which the caller cannot obtain from
    [activeSagas] once [executeSaga] has deleted the entry. *)
Definition startSaga (sagaDefinition : SagaDefinition) (initialData : Data)
  : M (string * nat) :=
  let* created := create sagaDefinition initialData in
  emit (SagaStarted (fst created)) ;;;
  executeSaga (fst created) sagaDefinition (snd created) ;;;
  ret created.

End Collaborators.

End SagaEngine.

(* ===================================================================== *)
(** ** Concrete definitions, collaborators and initial states *)
(* ===================================================================== *)

Module Scenarios.

Import WorkflowEngine.

Definition plain_step (sid : string) (nx : option (list string))
           (handler : option string) : WorkflowStep :=
  mkStep sid sid (Some action) (Some emptyData) nx handler None None.

Definition on_order (entry : string) : WorkflowTrigger :=
  mkTrigger entry "order.created" None None.

Definition order_created : Event := mkEvent "evt-1" "order.created" emptyData.

(** step1 -> step2 -> step3, entered at step1. *)
Definition linear : WorkflowDefinition :=
  mkWorkflow "wf-linear" "linear" "1.0.0"
             [on_order "step1"; mkTrigger "step1" "order.updated" None None]
             [plain_step "step1" (Some ["step2"]) None;
              plain_step "step2" (Some ["step3"]) None;
              plain_step "step3" None None]
             emptyData.

(** step1 -> step2 -> step1: the [next] of step2 points back to step1. *)
Definition looped : WorkflowDefinition :=
  mkWorkflow "wf-looped" "looped" "1.0.0"
             [on_order "step1"]
             [plain_step "step1" (Some ["step2"]) None;
              plain_step "step2" (Some ["step1"]) None]
             emptyData.

(** "charge" names "refund" as its error handler; "audit" lists "charge"
    among its dependencies; only "audit" is a trigger entry point. *)
Definition handled : WorkflowDefinition :=
  mkWorkflow "wf-handled" "handled" "1.0.0"
             [on_order "audit"]
             [mkStep "charge" "charge" (Some action) (Some emptyData)
                     None (Some "refund") None None;
              plain_step "refund" None None;
              mkStep "audit" "audit" (Some action) (Some emptyData)
                     None None None (Some ["charge"])]
             emptyData.

(** A single step that carries a retry policy and no error handler. *)
Definition three_attempts : RetryPolicy := mkRetryPolicy 3 exponential 100 (Some 250%Z).

Definition flaky_step : WorkflowStep :=
  mkStep "flaky" "flaky" (Some action) (Some emptyData)
         None None (Some three_attempts) None.

Definition retried : WorkflowDefinition :=
  mkWorkflow "wf-retried" "retried" "1.0.0" [on_order "flaky"] [flaky_step] emptyData.

(** A single step whose error handler names a step that does not exist. *)
Definition dangling_step : WorkflowStep :=
  mkStep "only" "only" (Some action) (Some emptyData) None (Some "missing") None None.

Definition dangling : WorkflowDefinition :=
  mkWorkflow "wf-dangling" "dangling" "1.0.0" [on_order "only"] [dangling_step] emptyData.

Definition succeeded : StepResult := mkResult true None None None.

(** A step runner call that resolves after 5 ms, undisturbed. *)
Definition calm : Outcome := mkOutcome (inl succeeded) None [] 5.

Definition always_calm : nat → WorkflowStep → WorkflowContext → Outcome :=
  λ _ _ _, calm.

(** While the first step runner call is in flight, [cancelExecution] is
    called for the execution that is being walked. *)
Definition cancelled_in_flight : nat → WorkflowStep → WorkflowContext → Outcome :=
  λ n _ ctx,
    match n with
    | O => mkOutcome (inl succeeded) None [ctx_executionId ctx] 5
    | _ => calm
    end.

(** The first call rejects, every later call resolves. *)
Definition fails_once : nat → WorkflowStep → WorkflowContext → Outcome :=
  λ n _ _,
    match n with
    | O => mkOutcome (inr "timeout") None [] 5
    | _ => calm
    end.

Definition always_fails : nat → WorkflowStep → WorkflowContext → Outcome :=
  λ _ _ _, mkOutcome (inr "boom") None [] 5.

Definition registry (known : list WorkflowDefinition)
  : string → string + option WorkflowDefinition :=
  λ workflowId, inr (List.find (λ d, bool_decide (wf_id d = workflowId)) known).

Definition exec_ids : nat → string :=
  λ n, match n with O => "exec_1" | _ => "exec_n" end.

Definition blank_execution : WorkflowExecution :=
  mkExecution "" "" pending None emptyData None 0 None None.

(** A freshly constructed engine at clock reading 1000. *)
Definition fresh : Engine := mkEngine (λ _, blank_execution) 0 ∅ [] [] 0 1000.

(** The engine right after [executeWorkflow] created an execution of the
    workflow [workflowId] and [executeWorkflowSteps] marked it running. *)
Definition walking (workflowId : string) : Engine :=
  snd ((let* r := create exec_ids workflowId None in
        assign r (WorkflowEngine.set_status running)) fresh).

End Scenarios.

Module SagaScenarios.

Import SagaEngine.

Definition reserve : SagaStep :=
  mkSagaStep "step1" "reserve" "inventory.reserve" (Some "inventory.release") None None.
Definition charge : SagaStep :=
  mkSagaStep "step2" "charge" "payment.charge" None (Some ["step1"]) None.
Definition ship : SagaStep :=
  mkSagaStep "step3" "ship" "shipping.create" None None None.

Definition order_saga : SagaDefinition :=
  mkSaga "saga-order" "order" [reserve; charge; ship] (mkPolicy backward 3 false).

(** step1 resolves, every later step rejects. *)
Definition second_fails : nat → SagaStep → Data → Data + string :=
  λ n _ _, match n with O => inl emptyData | _ => inr "card declined" end.

Definition compensation_ok : nat → string → Data → option string := λ _ _ _, None.

Definition compensation_raises : nat → string → Data → option string :=
  λ _ _ _, Some "release failed".

Definition saga_ids : nat → string :=
  λ n, match n with O => "saga_1" | _ => "saga_n" end.

Definition blank_context : SagaContext :=
  mkSagaContext "" "" running 0 emptyData [] [] 0 false.

Definition fresh : Engine := mkEngine (λ _, blank_context) 0 ∅ [] [] [] 0 1000.

End SagaScenarios.

(* ===================================================================== *)
(** ** The retry behaviour as the specification words it *)
(* ===================================================================== *)

(** This module does not embed source code: [WorkflowEngine.executeStep]
    above is the embedding.  It writes down section 4.2 of the
    specification ("retries up to maxAttempts, delaying between attempts
    according to backoff ..., capped at maxDelay if present, before falling
    through to the error-handler-or-propagate logic") so that the two can be
    compared. *)
Module RetrySpec.

Import WorkflowEngine.

Definition backoffDelay (policy : RetryPolicy) (attemptNumber : nat) : Z :=
  let uncapped :=
    match backoff policy with
    | fixed => retry_delay policy
    | linear => retry_delay policy * Z.of_nat attemptNumber
    | exponential => retry_delay policy * 2 ^ (Z.of_nat attemptNumber - 1)
    end%Z in
  match maxDelay policy with
  | Some cap => Z.min uncapped cap
  | None => uncapped
  end.

Section Collaborators.

Variable runner : nat → WorkflowStep → WorkflowContext → Outcome.

Fixpoint retry (retriesLeft attemptNumber : nat) (policy : RetryPolicy)
         (r : nat) (step : WorkflowStep) (stepId : string)
         (input : option StepInput) (error : string) : M StepResult :=
  match retriesLeft with
  | O => throw error
  | S retriesLeft' =>
      advance (backoffDelay policy attemptNumber) ;;;
      try_catch
        (runStep runner r step stepId input)
        (retry retriesLeft' (S attemptNumber) policy r step stepId input)
  end.

Definition executeStep_retrying (fuel : nat) (r : nat)
           (definition : WorkflowDefinition) (stepId : string)
           (input : option StepInput) : M StepResult :=
  match find_step stepId (steps definition) with
  | None =>
      throw ("Step " +:+ stepId +:+ " not found in workflow " +:+ wf_id definition)
  | Some step =>
      assign r (set_currentStep stepId) ;;;
      try_catch
        (try_catch
           (runStep runner r step stepId input)
           (λ error,
              match retryPolicy step with
              | Some policy =>
                  retry (maxAttempts policy) 1 policy r step stepId input error
              | None => throw error
              end))
        (λ error,
           if truthy_opt (errorHandler step)
           then handleStepError (executeStep runner fuel) r definition step error
           else throw error)
  end.

End Collaborators.

End RetrySpec.

(* ===================================================================== *)
(** ** WorkflowRegistry storage and cache ([src/unnamed/part_002]) *)
(* ===================================================================== *)

Module WorkflowRegistryCache.

Inductive EntityStatus := draft | published | deprecated | archived.

(** A [WorkflowDefinition] together with its optional [description], the
    one field of the interface that the engine never reads and that the
    record [WorkflowDefinition] above leaves out. *)
Record Workflow := mkDescribed {
  definition : WorkflowDefinition;
  description : option string
}.

(** [WorkflowDefinitionEntity], the columns the registry reads or writes. *)
Record Entity := mkEntity {
  entity_id : string;
  entity_name : string;
  entity_version : string;
  entity_description : option string;
  entity_triggers : list WorkflowTrigger;
  entity_steps : list WorkflowStep;
  entity_metadata : option Data;
  entity_status : EntityStatus;
  isActive : bool
}.

(** The argument of [workflowRepository.create]: an entity without id. *)
Record Draft := mkDraft {
  draft_name : string;
  draft_version : string;
  draft_description : option string;
  draft_triggers : list WorkflowTrigger;
  draft_steps : list WorkflowStep;
  draft_metadata : Data;
  draft_status : EntityStatus;
  draft_isActive : bool
}.

(** [Partial<WorkflowDefinition>], the fields [updateWorkflow] looks at. *)
Record Updates := mkUpdates {
  upd_name : option string;
  upd_version : option string;
  upd_description : option string;
  upd_triggers : option (list WorkflowTrigger);
  upd_steps : option (list WorkflowStep);
  upd_metadata : option Data
}.

(** The optional [filters] of [listWorkflows]. *)
Record Filters := mkFilters {
  filter_status : option string;
  filter_isActive : option bool;
  filter_search : option string
}.

(** The conditions [listWorkflows] adds to its query: the status when it is
    truthy, the activity flag when it is defined, the search pattern when
    the search string is truthy. *)
Record Query := mkQuery {
  where_status : option string;
  where_isActive : option bool;
  where_ilike : option string
}.

Definition keep_truthy (o : option string) : option string :=
  match o with
  | Some s => if truthy s then Some s else None
  | None => None
  end.

Definition build_query (filters : option Filters) : Query :=
  match filters with
  | None => mkQuery None None None
  | Some f =>
      mkQuery (keep_truthy (filter_status f))
              (filter_isActive f)
              (match keep_truthy (filter_search f) with
               | Some s => Some ("%" +:+ s +:+ "%")
               | None => None
               end)
  end.

(** The conversion written out in [getWorkflow]; [metadata || {}]. *)
Definition toWorkflow (e : Entity) : Workflow :=
  mkDescribed
    (mkWorkflow (entity_id e) (entity_name e) (entity_version e)
                (entity_triggers e) (entity_steps e)
                (default emptyData (entity_metadata e)))
    (entity_description e).

(** The object literal passed to [create] by [registerWorkflow]. *)
Definition toDraft (workflow : Workflow) : Draft :=
  let d := definition workflow in
  mkDraft (wf_name d) (wf_version d) (description workflow) (triggers d) (steps d)
          (wf_metadata d) draft false.

(** The field updates of [updateWorkflow]: [name], [version], [triggers],
    [steps] and [metadata] are taken when truthy, [description] when it is
    not [undefined]. *)
Definition applyUpdates (updates : Updates) (e : Entity) : Entity :=
  mkEntity (entity_id e)
           (default (entity_name e) (keep_truthy (upd_name updates)))
           (default (entity_version e) (keep_truthy (upd_version updates)))
           (match upd_description updates with
            | Some d => Some d
            | None => entity_description e
            end)
           (default (entity_triggers e) (upd_triggers updates))
           (default (entity_steps e) (upd_steps updates))
           (match upd_metadata updates with
            | Some m => Some m
            | None => entity_metadata e
            end)
           (entity_status e) (isActive e).

Definition setPublication (st : EntityStatus) (active : bool) (e : Entity) : Entity :=
  mkEntity (entity_id e) (entity_name e) (entity_version e) (entity_description e)
           (entity_triggers e) (entity_steps e) (entity_metadata e) st active.

Section Repository.

(** The TypeORM repository, over any store [R].  Every call may reject
    ([inl]).  [findOneByName] is the lookup of [getWorkflowByName], ordered
    by [versionNumber] descending; [remove] is [delete] and answers with the
    number of rows affected. *)
Variable R : Type.
Variable findOneById : R → string → string + option Entity.
Variable findOneByNameVersion : R → string → string → string + option Entity.
Variable findOneByName : R → string → option string → string + option Entity.
Variable getMany : R → Query → string + list Entity.
Variable saveNew : R → Draft → string + R.
Variable save : R → Entity → string + R.
Variable remove : R → string → string + (nat * R).

(** The registry: its [workflowCache] map and the store behind the
    repository. *)
Record Registry := mkRegistry {
  workflowCache : gmap string Workflow;
  store : R
}.

Definition query {A} (q : R → string + A) : Async Registry A :=
  λ s, match q (store s) with
       | inl message => (Thrown message, s)
       | inr a => (Returned a, s)
       end.

Definition command (c : R → string + R) : Async Registry unit :=
  λ s, match c (store s) with
       | inl message => (Thrown message, s)
       | inr r => (Returned tt, mkRegistry (workflowCache s) r)
       end.

Definition cache_set (key : string) (workflow : Workflow) : Async Registry unit :=
  modify (λ s, mkRegistry (<[key := workflow]> (workflowCache s)) (store s)).

Definition cache_delete (key : string) : Async Registry unit :=
  modify (λ s, mkRegistry (delete key (workflowCache s)) (store s)).

Definition registerWorkflow (workflow : Workflow) : Async Registry unit :=
  let d := definition workflow in
  let* existing := query (λ r, findOneByNameVersion r (wf_name d) (wf_version d)) in
  match existing with
  | Some _ =>
      throw ("Workflow " +:+ wf_name d +:+ "@" +:+ wf_version d +:+ " already exists")
  | None =>
      command (λ r, saveNew r (toDraft workflow)) ;;;
      cache_set (wf_id d) workflow
  end.

Definition getWorkflow (workflowId : string) : Async Registry (option Workflow) :=
  let* cached := gets (λ s, workflowCache s !! workflowId) in
  match cached with
  | Some workflow => ret (Some workflow)
  | None =>
      let* found := query (λ r, findOneById r workflowId) in
      match found with
      | None => ret None
      | Some workflowEntity =>
          let workflow := toWorkflow workflowEntity in
          cache_set workflowId workflow ;;;
          ret (Some workflow)
      end
  end.

Definition getWorkflowByName (name : string) (version : option string)
  : Async Registry (option Workflow) :=
  let* found := query (λ r, findOneByName r name (keep_truthy version)) in
  match found with
  | None => ret None
  | Some workflowEntity => getWorkflow (entity_id workflowEntity)
  end.

(** The loop of [listWorkflows] over the entities the query returned. *)
Fixpoint collect (entities : list Entity) (workflows : list Workflow)
  : Async Registry (list Workflow) :=
  match entities with
  | [] => ret workflows
  | entity :: rest =>
      let* workflow := getWorkflow (entity_id entity) in
      match workflow with
      | Some w => collect rest (workflows ++ [w])
      | None => collect rest workflows
      end
  end.

Definition listWorkflows (filters : option Filters) : Async Registry (list Workflow) :=
  let* workflowEntities := query (λ r, getMany r (build_query filters)) in
  collect workflowEntities [].

Definition not_found (workflowId : string) : string :=
  "Workflow " +:+ workflowId +:+ " not found".

Definition updateWorkflow (workflowId : string) (updates : Updates)
  : Async Registry (option Workflow) :=
  let* found := query (λ r, findOneById r workflowId) in
  match found with
  | None => throw (not_found workflowId)
  | Some workflowEntity =>
      command (λ r, save r (applyUpdates updates workflowEntity)) ;;;
      cache_delete workflowId ;;;
      getWorkflow workflowId
  end.

Definition deleteWorkflow (workflowId : string) : Async Registry unit :=
  let* affected :=
    (λ s, match remove (store s) workflowId with
          | inl message => (Thrown message, s)
          | inr (n, r) => (Returned n, mkRegistry (workflowCache s) r)
          end) in
  match affected with
  | O => throw (not_found workflowId)
  | S _ => cache_delete workflowId
  end.

(** The common body of [publishWorkflow] and [unpublishWorkflow]. *)
Definition republish (st : EntityStatus) (active : bool) (workflowId : string)
  : Async Registry unit :=
  let* found := query (λ r, findOneById r workflowId) in
  match found with
  | None => throw (not_found workflowId)
  | Some workflowEntity =>
      command (λ r, save r (setPublication st active workflowEntity)) ;;;
      cache_delete workflowId
  end.

Definition publishWorkflow : string → Async Registry unit := republish published true.

Definition unpublishWorkflow : string → Async Registry unit := republish draft false.

Definition clearCache : Async Registry unit :=
  modify (λ s, mkRegistry ∅ (store s)).

End Repository.

End WorkflowRegistryCache.

(* ===================================================================== *)
(** ** An in-memory repository, for running the registry *)
(* ===================================================================== *)

Module RegistryScenarios.

Import WorkflowRegistryCache Scenarios.

(** A table of entities; new rows get the id ["uuid-"] followed by the
    row's name. *)
Definition Table := list Entity.

Definition byId (t : Table) (workflowId : string) : string + option Entity :=
  inr (List.find (λ e, bool_decide (entity_id e = workflowId)) t).

Definition byNameVersion (t : Table) (name version : string) : string + option Entity :=
  inr (List.find (λ e, bool_decide (entity_name e = name)
                       && bool_decide (entity_version e = version)) t).

Definition byName (t : Table) (name : string) (version : option string)
  : string + option Entity :=
  inr (List.find (λ e, bool_decide (entity_name e = name)
                       && match version with
                          | Some v => bool_decide (entity_version e = v)
                          | None => true
                          end) t).

Definition everything (t : Table) (q : Query) : string + list Entity := inr t.

Definition insertRow (t : Table) (d : Draft) : string + Table :=
  inr (t ++ [mkEntity ("uuid-" +:+ draft_name d) (draft_name d) (draft_version d)
                      (draft_description d) (draft_triggers d) (draft_steps d)
                      (Some (draft_metadata d)) (draft_status d) (draft_isActive d)]).

Definition updateRow (t : Table) (e : Entity) : string + Table :=
  inr (map (λ row, if bool_decide (entity_id row = entity_id e) then e else row) t).

Definition deleteRow (t : Table) (workflowId : string) : string + (nat * Table) :=
  let kept := List.filter (λ e, negb (bool_decide (entity_id e = workflowId))) t in
  inr (length t - length kept, kept).

Definition linear_described : Workflow := mkDescribed linear (Some "three steps in a row").

Definition linear_row : Entity :=
  mkEntity "wf-linear" "linear" "1.0.0" (Some "three steps in a row")
           (triggers linear) (steps linear) None draft false.

Definition empty_registry : Registry Table := mkRegistry Table ∅ [].

Definition stocked_registry : Registry Table := mkRegistry Table ∅ [linear_row].

End RegistryScenarios.

(* ===================================================================== *)
(** ** Relations between the states before and after a routine *)
(* ===================================================================== *)

(** [keeps rel m]: whatever [m] does, the state it leaves is related by
    [rel] to the state it started from. *)
Definition keeps {S A} (rel : S → S → Prop) (m : Async S A) : Prop :=
  ∀ w, rel w (snd (m w)).

(** [settles m]: [m] always returns or throws; it never runs out of fuel. *)
Definition settles {S A} (m : Async S A) : Prop :=
  ∀ w, fst (m w) ≠ Stalled.

Module WorkflowInvariants.

Import WorkflowEngine.

(** What no part of a walk changes: the [executions] map, the ids and
    references handed out, and the [id], [workflowId] and [startedAt] of
    every execution object; notifications and step runner calls are only
    ever appended.  Under [clock] (the clock never runs backwards while a
    step is in flight) the clock reading does not decrease either. *)
Definition steady (clock : Prop) (w w' : Engine) : Prop :=
  executions w' = executions w ∧
  idsAllocated w' = idsAllocated w ∧
  nextRef w' = nextRef w ∧
  (∀ r, exec_id (heap w' r) = exec_id (heap w r) ∧
        workflowId (heap w' r) = workflowId (heap w r) ∧
        startedAt (heap w' r) = startedAt (heap w r)) ∧
  (∃ more, emitted w' = emitted w ++ more) ∧
  (∃ more, runnerCalls w' = runnerCalls w ++ more) ∧
  (clock → (now w ≤ now w')%Z).

(** An assignment that leaves [id], [workflowId] and [startedAt] alone. *)
Definition mutable_only (f : WorkflowExecution → WorkflowExecution) : Prop :=
  ∀ e, exec_id (f e) = exec_id e ∧ workflowId (f e) = workflowId e ∧
       startedAt (f e) = startedAt e.

(** The clock does not run backwards while a step runner call is in
    flight. *)
Definition monotone_clock (runner : nat → WorkflowStep → WorkflowContext → Outcome)
  : Prop :=
  ∀ n step ctx, (0 ≤ elapsed (runner n step ctx))%Z.

End WorkflowInvariants.

Module SagaInvariants.

Import SagaEngine.

(** What no part of a saga run changes, up to the final clean-up: the
    [activeSagas] map, the ids and references handed out, the clock, and
    the [sagaId], [sagaName] and [startTime] of every context; calls,
    notifications, [completedSteps] and [failedSteps] are only ever
    appended to. *)
Definition steady (w w' : Engine) : Prop :=
  activeSagas w' = activeSagas w ∧
  idsAllocated w' = idsAllocated w ∧
  nextRef w' = nextRef w ∧
  now w' = now w ∧
  (∃ more, stepCalls w' = stepCalls w ++ more) ∧
  (∃ more, compensationCalls w' = compensationCalls w ++ more) ∧
  (∃ more, emitted w' = emitted w ++ more) ∧
  ∀ r, sagaId (heap w' r) = sagaId (heap w r) ∧
       sagaName (heap w' r) = sagaName (heap w r) ∧
       startTime (heap w' r) = startTime (heap w r) ∧
       (∃ more, completedSteps (heap w' r) = completedSteps (heap w r) ++ more) ∧
       (∃ more, failedSteps (heap w' r) = failedSteps (heap w r) ++ more).

(** What compensation leaves alone: no step is run, and no context's
    [data], [currentStep], [completedSteps] or [failedSteps] changes. *)
Definition compensating (w w' : Engine) : Prop :=
  stepCalls w' = stepCalls w ∧
  ∀ r, data (heap w' r) = data (heap w r) ∧
       currentStep (heap w' r) = currentStep (heap w r) ∧
       completedSteps (heap w' r) = completedSteps (heap w r) ∧
       failedSteps (heap w' r) = failedSteps (heap w r).

(** An assignment to [status] only. *)
Definition status_only (f : SagaContext → SagaContext) : Prop :=
  ∀ c, sagaId (f c) = sagaId c ∧ sagaName (f c) = sagaName c ∧
       startTime (f c) = startTime c ∧ data (f c) = data c ∧
       currentStep (f c) = currentStep c ∧
       completedSteps (f c) = completedSteps c ∧ failedSteps (f c) = failedSteps c.

(** The compensation actions that a list of steps declares, in order: the
    [compensation] strings that are truthy. *)
Definition declared (l : list SagaStep) : list string :=
  omap (λ step, match compensation step with
                | Some c => if truthy c then Some c else None
                | None => None
                end) l.

(** The compensation actions [handleStepFailure] sets out to invoke, by
    strategy: backward, those of the completed steps, last completed first
    (a completed id is looked up with [find]); forward, those of the steps
    after the current one; mixed, none. *)
Definition planned (sagaDefinition : SagaDefinition) (executionContext : SagaContext)
  : list string :=
  match strategy (compensationPolicy sagaDefinition) with
  | backward =>
      declared (omap (λ stepId, find_step stepId (steps sagaDefinition))
                     (rev (completedSteps executionContext)))
  | forward =>
      declared (drop (currentStep executionContext + 1) (steps sagaDefinition))
  | mixed => []
  end.

(** The engine state after the compensation manager has been called for
    the actions [called], all of which resolved. *)
Definition compensated_with (called : list string) (w : Engine) : Engine :=
  mkEngine (heap w) (nextRef w) (activeSagas w) (emitted w) (stepCalls w)
           (compensationCalls w ++ called) (idsAllocated w) (now w).

(** Every step's declared dependencies are ids of steps listed before it. *)
Definition dependencies_in_order (l : list SagaStep) : Prop :=
  ∀ before step after, l = before ++ step :: after →
                       blocked step (map id before) = false.

End SagaInvariants.

(* ===================================================================== *)
(** ** More concrete definitions and collaborators *)
(* ===================================================================== *)

Module MoreScenarios.

Import WorkflowEngine Scenarios.

Definition order_cancelled : Event := mkEvent "evt-2" "order.cancelled" emptyData.

(** The trigger names "start", which is not a step. *)
Definition misdirected : WorkflowDefinition :=
  mkWorkflow "wf-misdirected" "misdirected" "1.0.0" [on_order "start"]
             [plain_step "step1" None None] emptyData.

(** "charge" names the existing step "refund" as its error handler. *)
Definition charge_step : WorkflowStep :=
  mkStep "charge" "charge" (Some action) (Some emptyData) None (Some "refund") None None.

Definition refund_step : WorkflowStep := plain_step "refund" None None.

Definition recovering : WorkflowDefinition :=
  mkWorkflow "wf-recovering" "recovering" "1.0.0" [on_order "charge"]
             [charge_step; refund_step] emptyData.

(** Calls for "charge" reject, every other call resolves. *)
Definition charge_fails : nat → WorkflowStep → WorkflowContext → Outcome :=
  λ _ step _,
    if bool_decide (step_id step = "charge")
    then mkOutcome (inr "card declined") None [] 5
    else calm.

Definition receipt : Data := mkData (Some ["step1"]) {[ "receipt" := "r-42" ]}.

Definition with_receipt : StepResult := mkResult true (Some receipt) None (Some ["step2"]).

(** Every call resolves with the data [receipt]. *)
Definition enriching : nat → WorkflowStep → WorkflowContext → Outcome :=
  λ _ _ _, mkOutcome (inl with_receipt) None [] 5.

Definition known : string → string + option WorkflowDefinition :=
  registry [linear; misdirected; recovering].

End MoreScenarios.

Module MoreSagaScenarios.

Import SagaEngine SagaScenarios.

Definition always_resolves : nat → SagaStep → Data → Data + string :=
  λ _ _ _, inl emptyData.

(** [charge] comes first although it depends on step1. *)
Definition misordered_saga : SagaDefinition :=
  mkSaga "saga-misordered" "misordered" [charge; reserve] (mkPolicy forward 3 false).

(** The context of [order_saga] after step1 completed and step2 failed. *)
Definition after_step1 : SagaContext :=
  mkSagaContext "saga-order" "order" running 1 emptyData ["step1"] [] 1000 false.

Definition compensating_engine : Engine :=
  mkEngine (λ _, after_step1) 1 ∅ [] ["step1"; "step2"] [] 1 1000.

End MoreSagaScenarios.

(* ===================================================================== *)
(** ** Reasoning rules for asynchronous routines *)
(* ===================================================================== *)

Section WpRules.

Context {S : Type}.
Implicit Types w : S.

Lemma wp_ret {A} (a : A) w (Q : Res A → S → Prop) :
  Q (Returned a) w → wp (ret a) w Q.
Proof. done. Qed.

Lemma wp_throw {A} e w (Q : Res A → S → Prop) :
  Q (Thrown e) w → wp (throw e) w Q.
Proof. done. Qed.

Lemma wp_gets {A} (f : S → A) w (Q : Res A → S → Prop) :
  Q (Returned (f w)) w → wp (gets f) w Q.
Proof. done. Qed.

Lemma wp_modify (f : S → S) w (Q : Res unit → S → Prop) :
  Q (Returned tt) (f w) → wp (modify f) w Q.
Proof. done. Qed.

Lemma wp_bind {A B} (m : Async S A) (k : A → Async S B) w (Q : Res B → S → Prop) :
  wp m w (λ res w', match res with
                    | Returned a => wp (k a) w' Q
                    | Thrown e => Q (Thrown e) w'
                    | Stalled => Q Stalled w'
                    end) →
  wp (bind m k) w Q.
Proof. unfold wp, bind. by destruct (m w) as [[a|e|] w']. Qed.

Lemma wp_try_catch {A} (body : Async S A) handler w (Q : Res A → S → Prop) :
  wp body w (λ res w', match res with
                       | Thrown e => wp (handler e) w' Q
                       | other => Q other w'
                       end) →
  wp (try_catch body handler) w Q.
Proof. unfold wp, try_catch. by destruct (body w) as [[a|e|] w']. Qed.

Lemma wp_try_finally {A} (body : Async S A) cleanup w (Q : Res A → S → Prop) :
  wp body w (λ res w', match res with
                       | Stalled => Q Stalled w'
                       | other => Q other (cleanup w')
                       end) →
  wp (try_finally body cleanup) w Q.
Proof. unfold wp, try_finally. by destruct (body w) as [[a|e|] w']. Qed.

(** A routine about whose result nothing is known. *)
Lemma wp_any {A} (m : Async S A) w (Q : Res A → S → Prop) :
  (∀ res w', Q res w') → wp m w Q.
Proof. intros H. apply H. Qed.

(** A routine whose result and final state are known. *)
Lemma wp_known {A} (m : Async S A) w res w' (Q : Res A → S → Prop) :
  m w = (res, w') → Q res w' → wp m w Q.
Proof. unfold wp. by intros ->. Qed.

End WpRules.

Ltac wp_step :=
  lazymatch goal with
  | |- wp (bind _ _) _ _ => apply wp_bind
  | |- wp (ret _) _ _ => apply wp_ret
  | |- wp (throw _) _ _ => apply wp_throw
  | |- wp (gets _) _ _ => apply wp_gets
  | |- wp (modify _) _ _ => apply wp_modify
  | |- wp (try_catch _ _) _ _ => apply wp_try_catch
  | |- wp (try_finally _ _) _ _ => apply wp_try_finally
  end; cbn beta iota.

(* ===================================================================== *)
(** ** Properties of WorkflowRegistry validation *)
(* ===================================================================== *)

Section RegistryFacts.

Import WorkflowRegistry Scenarios.

(** The cycle check answers [false] for every definition, so it is right
    on the acyclic ones. *)
Lemma hasCircularDependencies_acyclic workflow :
  acyclic workflow → hasCircularDependencies workflow = false.
Proof. reflexivity. Qed.

Lemma looped_is_cyclic : cyclic looped.
Proof.
  exists "step1". apply tc_l with "step2"; [|apply tc_once].
  - left. exists (plain_step "step1" (Some ["step2"]) None), ["step2"].
    repeat split; cbn; set_solver.
  - left. exists (plain_step "step2" (Some ["step1"]) None), ["step1"].
    repeat split; cbn; set_solver.
Qed.

(** C1 (evaluation at the failing input).  The definition [looped], whose
    step2 names step1 in [next] while step1 names step2, contains a cycle;
    [hasCircularDependencies] still returns [false] on it and
    [validateWorkflow] reports it valid, with no circular-dependency
    error. *)
Theorem cycle_check_misses_cycle :
  cyclic looped ∧
  hasCircularDependencies looped = false ∧
  validateWorkflow looped = mkValidation true [] [].
Proof.
  split; [exact looped_is_cyclic|]. split; vm_compute; reflexivity.
Qed.

Lemma elem_of_set_order l x : x ∈ set_order l ↔ x ∈ l.
Proof.
  unfold set_order.
  assert (G : ∀ acc, x ∈ fold_left
                (λ acc x, if includes acc x then acc else acc ++ [x]) l acc
              ↔ x ∈ acc ∨ x ∈ l).
  { induction l as [|y l IH]; intros acc; cbn [fold_left].
    - set_solver.
    - rewrite IH. unfold includes. case_bool_decide; set_solver. }
  rewrite G. set_solver.
Qed.

Lemma elem_of_fold_singletons {A} (f : A → string) (l : list A) (acc : gset string) x :
  x ∈ fold_left (λ (a : gset string) n, a ∪ {[ f n ]}) l acc
  ↔ x ∈ acc ∨ ∃ n, n ∈ l ∧ f n = x.
Proof.
  revert acc. induction l as [|y l IH]; intros acc; cbn [fold_left].
  - split; [auto|]. intros [?|(n & Hn & _)]; [done|]. by apply elem_of_nil in Hn.
  - rewrite IH. split.
    + intros [H|(n & Hn & <-)].
      * apply elem_of_union in H as [H|H]; [auto|].
        apply elem_of_singleton in H. right. exists y. split; [left|done].
      * right. exists n. split; [by right|done].
    + intros [H|(n & Hn & <-)]; [left; set_solver|].
      apply elem_of_cons in Hn as [->|Hn]; [left; set_solver|].
      right. by exists n.
Qed.

Lemma elem_of_referencedSteps workflow x :
  x ∈ referencedSteps workflow ↔
  (∃ s nx, s ∈ steps workflow ∧ step_next s = Some nx ∧ x ∈ nx) ∨
  (∃ t, t ∈ triggers workflow ∧ trigger_type t = x).
Proof.
  unfold referencedSteps. rewrite elem_of_fold_singletons.
  assert (G : ∀ l (acc : gset string),
             x ∈ fold_left
               (λ (acc : gset string) step,
                  match step_next step with
                  | Some nx => fold_left (λ (a : gset string) n, a ∪ {[ n ]}) nx acc
                  | None => acc
                  end) l acc
             ↔ x ∈ acc ∨ ∃ s nx, s ∈ l ∧ step_next s = Some nx ∧ x ∈ nx).
  { induction l as [|y l IH]; intros acc; cbn [fold_left].
    - split; [auto|]. intros [?|(s & nx & Hs & _)]; [done|].
      by apply elem_of_nil in Hs.
    - rewrite IH. destruct (step_next y) as [nx|] eqn:E.
      + rewrite (elem_of_fold_singletons (λ n : string, n)). split.
        * intros [[H|(n & Hn & <-)]|(s & nx' & Hs & E' & Hx)].
          -- by left.
          -- right. exists y, nx. split; [left|done].
          -- right. exists s, nx'. split; [by right|done].
        * intros [H|(s & nx' & Hs & E' & Hx)]; [by left; left|].
          apply elem_of_cons in Hs as [->|Hs].
          -- left. right. exists x. split; [congruence|done].
          -- right. by exists s, nx'.
      + split.
        * intros [H|(s & nx' & Hs & E' & Hx)]; [by left|].
          right. exists s, nx'. split; [by right|done].
        * intros [H|(s & nx' & Hs & E' & Hx)]; [by left|].
          apply elem_of_cons in Hs as [->|Hs]; [congruence|].
          right. by exists s, nx'. }
  rewrite G. set_solver.
Qed.

(** X8.  What [findOrphanedSteps] computes: the step ids listed in no [next] and
    equal to no trigger's [type].  Neither [errorHandler] nor
    [dependencies] is consulted. *)
Lemma findOrphanedSteps_spec workflow x :
  x ∈ findOrphanedSteps workflow ↔
  (∃ s, s ∈ steps workflow ∧ step_id s = x) ∧
  ¬ (∃ s nx, s ∈ steps workflow ∧ step_next s = Some nx ∧ x ∈ nx) ∧
  ¬ (∃ t, t ∈ triggers workflow ∧ trigger_type t = x).
Proof.
  unfold findOrphanedSteps.
  rewrite list_elem_of_In, filter_In, <- list_elem_of_In.
  rewrite elem_of_set_order, list_elem_of_fmap, negb_true_iff, bool_decide_eq_false.
  rewrite elem_of_referencedSteps.
  split.
  - intros [(s & -> & Hs) Hn]. split; [by exists s|]. split; intros H; apply Hn; auto.
  - intros [(s & Hs & <-) [H1 H2]]. split; [by exists s|]. intros [?|?]; auto.
Qed.

(** C6 (evaluation at the failing input).  In [handled], "refund" is the
    [errorHandler] of "charge" and "charge" is a dependency of "audit";
    [findOrphanedSteps] reports both as orphaned. *)
Theorem orphans_ignore_handlers_and_dependencies :
  (∃ s, s ∈ steps handled ∧ errorHandler s = Some "refund") ∧
  (∃ s, s ∈ steps handled ∧ dependencies s = Some ["charge"]) ∧
  findOrphanedSteps handled = ["charge"; "refund"].
Proof.
  split; [|split].
  - eexists. split; [left|reflexivity].
  - eexists. split; [right; right; left|reflexivity].
  - vm_compute. reflexivity.
Qed.

End RegistryFacts.

(* ===================================================================== *)
(** ** Properties of the workflow engine *)
(* ===================================================================== *)

Section EngineFacts.

Import WorkflowEngine Scenarios.

(** [cancelExecution] on an execution that is not running changes
    nothing. *)
Lemma cancelExecution_not_running w executionId r :
  executions w !! executionId = Some r →
  status (heap w r) ≠ running →
  cancelExecution executionId w = (Returned tt, w).
Proof.
  intros Hr Hs. unfold cancelExecution, bind, gets, deref. rewrite Hr.
  cbn. destruct (status (heap w r)); try reflexivity. congruence.
Qed.

Lemma cancelExecution_unknown w executionId :
  executions w !! executionId = None →
  cancelExecution executionId w = (Returned tt, w).
Proof.
  intros Hr. unfold cancelExecution, bind, gets. by rewrite Hr.
Qed.

(** [cancelExecution] on a running execution: the status becomes
    [cancelled] and [completedAt] is stamped; [duration] is left as it
    was. *)
Lemma cancelExecution_running w executionId r :
  executions w !! executionId = Some r →
  status (heap w r) = running →
  ∃ w', cancelExecution executionId w = (Returned tt, w') ∧
        status (heap w' r) = cancelled ∧
        completedAt (heap w' r) = Some (now w) ∧
        duration (heap w' r) = duration (heap w r) ∧
        emitted w' = emitted w ++ [ExecutionCancelled executionId].
Proof.
  intros Hr Hs. unfold cancelExecution, bind, gets, deref. rewrite Hr.
  cbn. rewrite Hs. cbn. eexists. split; [reflexivity|]. cbn.
  rewrite !Nat.eqb_refl. done.
Qed.

(** C2 (evaluation at the failing input).  [linear] is executed while a
    [cancelExecution] call for the same execution arrives during the first
    step runner call.  After that step the status is [cancelled]; the walk
    nevertheless runs three more steps and the status ends as
    [completed], with a "completed" notification after the "cancelled"
    one. *)
Theorem cancelled_execution_completes :
  let after_first :=
    snd (executeStep cancelled_in_flight 20 0 linear "step1"
                     (Some (InEvent order_created)) (walking "wf-linear")) in
  let run :=
    executeWorkflow (registry [linear]) WorkflowRegistry.validateWorkflow
                    cancelled_in_flight exec_ids 20 "wf-linear" order_created
                    None fresh in
  status (heap after_first 0) = cancelled ∧
  fst run = Returned 0 ∧
  emitted (snd run) = [ExecutionStarted "exec_1"; ExecutionCancelled "exec_1";
                       ExecutionCompleted "exec_1"] ∧
  map fst (runnerCalls (snd run)) = ["step1"; "step1"; "step2"; "step3"] ∧
  status (heap (snd run) 0) = completed.
Proof. vm_compute. repeat split; reflexivity. Qed.

(** C5 (evaluation at the failing input).  [cancelExecution] on the
    running execution "exec_1" makes it [cancelled] and stamps
    [completedAt], but leaves [duration] unset. *)
Theorem cancel_leaves_duration_unset :
  let w := snd (cancelExecution "exec_1" (walking "wf-linear")) in
  status (heap (walking "wf-linear") 0) = running ∧
  status (heap w 0) = cancelled ∧
  completedAt (heap w 0) = Some 1000%Z ∧
  duration (heap w 0) = None.
Proof. vm_compute. repeat split; reflexivity. Qed.

(** X15.  What [findPendingSteps] computes: the ids of the steps whose
    dependencies are all listed in [context.completedSteps].  Whether a
    step already ran plays no part. *)
Lemma findPendingSteps_spec execution definition x :
  x ∈ findPendingSteps execution definition ↔
  ∃ step, find_step x (steps definition) = Some step ∧
          ∀ deps dep, dependencies step = Some deps → dep ∈ deps →
                      dep ∈ getCompletedSteps execution.
Proof.
  unfold findPendingSteps.
  rewrite list_elem_of_In, filter_In, <- list_elem_of_In, list_elem_of_fmap.
  split.
  - intros [_ H]. destruct (find_step x (steps definition)) as [step|]; [|done].
    exists step. split; [done|]. intros deps dep E Hdep. rewrite E in H.
    rewrite forallb_forall in H. specialize (H dep).
    rewrite <- list_elem_of_In in H. specialize (H Hdep).
    unfold includes in H. by apply bool_decide_eq_true in H.
  - intros (step & E & H). split.
    + unfold find_step in E. apply find_some in E as [Hin Hid].
      apply bool_decide_eq_true in Hid. exists step.
      by rewrite list_elem_of_In.
    + rewrite E. destruct (dependencies step) as [deps|]; [|done].
      apply forallb_forall. intros dep Hdep. apply bool_decide_eq_true.
      apply (H deps); [done|]. by apply list_elem_of_In.
Qed.

(** C7 (evaluation at the failing input).  In [linear], after the start
    step "step1" has been executed, [findPendingSteps] still lists
    "step1", and the whole walk calls the step runner on "step1" twice. *)
Theorem start_step_runs_twice :
  let after_start :=
    snd (executeStep always_calm 20 0 linear "step1"
                     (Some (InEvent order_created)) (walking "wf-linear")) in
  let run :=
    executeWorkflow (registry [linear]) WorkflowRegistry.validateWorkflow
                    always_calm exec_ids 20 "wf-linear" order_created None fresh in
  map fst (runnerCalls after_start) = ["step1"] ∧
  findPendingSteps (heap after_start 0) linear = ["step1"; "step2"; "step3"] ∧
  fst run = Returned 0 ∧
  map fst (runnerCalls (snd run)) = ["step1"; "step1"; "step2"; "step3"].
Proof. vm_compute. repeat split; reflexivity. Qed.

(** C9.  When the definition lookup rejects, or finds no definition, or
    validation reports the definition invalid, [executeWorkflow] throws and
    leaves the engine exactly as it was: no id generated, no execution
    object allocated, the [executions] map and the emitted notifications
    unchanged. *)
Theorem executeWorkflow_fails_before_creation
        (getWorkflow : string → string + option WorkflowDefinition)
        (validate : WorkflowDefinition → ValidationResult)
        runner generateExecutionId fuel workflowId triggerEvent context w :
  (∃ message, getWorkflow workflowId = inl message) ∨
  getWorkflow workflowId = inr None ∨
  (∃ definition, getWorkflow workflowId = inr (Some definition) ∧
                 isValid (validate definition) = false) →
  ∃ message,
    executeWorkflow getWorkflow validate runner generateExecutionId fuel
                    workflowId triggerEvent context w = (Thrown message, w).
Proof.
  unfold executeWorkflow.
  intros [[message ->]|[->|(definition & -> & ->)]]; cbn; eauto.
Qed.

Lemma executeWorkflow_fails_before_creation_witness :
  ∃ message,
    executeWorkflow (registry [linear]) WorkflowRegistry.validateWorkflow
                    always_calm exec_ids 20 "wf-unknown" order_created None fresh
    = (Thrown message, fresh).
Proof.
  apply executeWorkflow_fails_before_creation. right. left. reflexivity.
Defined.

Ltac engine_norm :=
  cbn [heap nextRef executions emitted runnerCalls idsAllocated now fst snd
       exec_id workflowId status currentStep context exec_error startedAt
       completedAt duration set_status set_currentStep set_context set_error
       set_completedAt set_duration with_heap app];
  rewrite ?Nat.eqb_refl;
  cbn [heap nextRef executions emitted runnerCalls idsAllocated now fst snd
       exec_id workflowId status currentStep context exec_error startedAt
       completedAt duration set_status set_currentStep set_context set_error
       set_completedAt set_duration with_heap app].

Ltac engine_step :=
  first [ wp_step
        | progress unfold assign, emit, deref, newDate, advance, log_call, finish ];
  engine_norm.

(** What a served [cancelExecution] call can change: the status and
    [completedAt] of execution objects and the emitted notifications. *)
Lemma cancelExecution_frame executionId w :
  ∃ w', cancelExecution executionId w = (Returned tt, w') ∧
        runnerCalls w' = runnerCalls w ∧ now w' = now w ∧
        idsAllocated w' = idsAllocated w ∧ executions w' = executions w.
Proof.
  unfold cancelExecution, bind, gets, deref.
  destruct (executions w !! executionId) as [r|]; [|by eexists].
  cbn. destruct (status (heap w r)); by eexists.
Qed.

Lemma cancels_frame ids w :
  ∃ w', for_each ids cancelExecution w = (Returned tt, w') ∧
        runnerCalls w' = runnerCalls w ∧ now w' = now w ∧
        idsAllocated w' = idsAllocated w ∧ executions w' = executions w.
Proof.
  revert w. induction ids as [|i ids IH]; intros w; cbn [for_each].
  - by eexists.
  - destruct (cancelExecution_frame i w) as (w1 & E1 & ? & ? & ? & ?).
    destruct (IH w1) as (w2 & E2 & ? & ? & ? & ?).
    exists w2. unfold bind. rewrite E1, E2. repeat split; congruence.
Qed.

(** A failing attempt: the step runner has been called once, the clock has
    advanced by the time the call took, and the error is thrown. *)
Lemma runStep_rejected runner r step stepId input message w :
  rejects (outcome_of runner r step stepId input w) message →
  ∃ w1, runStep runner r step stepId input w = (Thrown message, w1) ∧
        runnerCalls w1 = runnerCalls w ++ [(stepId, runnerData input (heap w r))] ∧
        now w1 = (now w + elapsed (outcome_of runner r step stepId input w))%Z.
Proof.
  intros Hrej. unfold runStep.
  set (o := outcome_of runner r step stepId input w) in *.
  unfold bind, gets, log_call, advance, modify. fold o. cbn beta iota.
  engine_norm.
  match goal with |- context [for_each (cancels o) cancelExecution ?W] =>
    destruct (cancels_frame (cancels o) W) as (w1 & E & Hc & Hn & _ & _) end.
  rewrite E. cbn [runnerCalls now] in Hc, Hn.
  destruct Hrej as [Hr|(result & Hr & Hs)]; rewrite Hr.
  - exists w1. done.
  - destruct (result_data result) as [d|]; unfold assign, modify, ret, throw;
      rewrite Hs; cbn; eexists; (split; [reflexivity|]); cbn; done.
Qed.

(** What [executeStep] does on a failure, for every step and collaborator:
    when its [try] block throws, the step runner has been called exactly
    once for the step, the clock has moved only by the duration of that
    call (no backoff wait), and the engine goes straight to the error
    handler, if the step names one, or rethrows.  The step's [retryPolicy]
    is never read. *)
Theorem failed_step_is_not_retried runner fuel r definition stepId step input message w :
  let o := outcome_of runner r step stepId input w in
  find_step stepId (steps definition) = Some step →
  rejects o message →
  ∃ w1,
    executeStep runner (S fuel) r definition stepId input w =
      (if truthy_opt (errorHandler step)
       then handleStepError (executeStep runner fuel) r definition step message
       else throw message) w1 ∧
    runnerCalls w1 = runnerCalls w ++ [(stepId, runnerData input (heap w r))] ∧
    now w1 = (now w + elapsed o)%Z.
Proof.
  intros o Hfind Hrej. cbn [executeStep]. rewrite Hfind.
  unfold bind at 1, assign at 1, modify at 1.
  match goal with |- context [try_catch _ _ ?W] => set (w0 := W) end.
  assert (Ho : outcome_of runner r step stepId input w0 = o).
  { unfold outcome_of, w0. engine_norm. destruct input; reflexivity. }
  destruct (runStep_rejected runner r step stepId input message w0) as (w1 & E & Hc & Hn).
  { by rewrite Ho. }
  exists w1. unfold try_catch. rewrite E. split; [done|].
  rewrite Hc, Hn, Ho. unfold w0. engine_norm. destruct input; done.
Qed.

Lemma failed_step_is_not_retried_witness :
  ∃ w1,
    executeStep fails_once 3 0 retried "flaky" None (walking "wf-retried") =
      (Thrown "timeout", w1) ∧
    map fst (runnerCalls w1) = ["flaky"] ∧
    now w1 = 1005%Z.
Proof.
  destruct (failed_step_is_not_retried fails_once 2 0 retried "flaky" flaky_step
              None "timeout" (walking "wf-retried")) as (w1 & E & Hc & Hn).
  - reflexivity.
  - left. reflexivity.
  - exists w1. split; [exact E|]. split; [rewrite Hc|rewrite Hn]; reflexivity.
Defined.

(** C8.  A failed step that carries a [retryPolicy] is to be retried up to
    [maxAttempts] times, with the backoff delay between attempts, before
    the error handler or the rethrow applies; [executeStep] does not do so.
    The step "flaky" carries a retry policy of three exponential attempts
    of delay 100 ms; its first attempt times out and a second one would
    succeed.  The specified behaviour calls the runner twice, waits 100 ms
    in between and returns the successful result; [executeStep] calls the
    runner once, waits for nothing and throws the first error. *)
Lemma retry_policy_is_ignored :
  let code := executeStep fails_once 3 0 retried "flaky" None (walking "wf-retried") in
  let spec := RetrySpec.executeStep_retrying fails_once 3 0 retried "flaky" None
                                             (walking "wf-retried") in
  retryPolicy flaky_step = Some three_attempts ∧
  fst code = Thrown "timeout" ∧
  map fst (runnerCalls (snd code)) = ["flaky"] ∧
  now (snd code) = 1005%Z ∧
  fst spec = Returned succeeded ∧
  map fst (runnerCalls (snd spec)) = ["flaky"; "flaky"] ∧
  now (snd spec) = 1110%Z ∧
  fst code ≠ fst spec.
Proof. vm_compute. repeat split; try reflexivity. discriminate. Qed.

Lemma executeStep_dangling_handler runner fuel r definition stepId step h input message w :
  find_step stepId (steps definition) = Some step →
  errorHandler step = Some h → truthy h = true →
  find_step h (steps definition) = None →
  rejects (outcome_of runner r step stepId input w) message →
  fst (executeStep runner (S fuel) r definition stepId input w)
  = Returned (mkResult false None (Some message) None).
Proof.
  intros Hfind Hh Ht Hnone Hrej. cbn [executeStep]. rewrite Hfind.
  unfold bind at 1, assign at 1, modify at 1.
  match goal with |- context [try_catch _ _ ?W] => set (w0 := W) end.
  destruct (runStep_rejected runner r step stepId input message w0) as (w1 & E & _).
  { replace (outcome_of runner r step stepId input w0)
      with (outcome_of runner r step stepId input w); [done|].
    unfold outcome_of, w0. engine_norm. destruct input; reflexivity. }
  unfold try_catch. rewrite E. unfold truthy_opt, handleStepError.
  rewrite Hh, Ht, Hnone. reflexivity.
Qed.

(** C10.  A start step fails and names an error handler that is not a step
    of the definition.  [executeStep] then returns, without raising, the
    result [{ success: false, error }] built by [handleStepError]; the walk
    goes on with [processNextSteps], and when that returns the execution
    ends [completed], with a "completed" notification. *)
Theorem dangling_handler_absorbs_failure
        runner fuel r definition triggerEvent stepId step h message w w2 :
  let input := Some (InEvent triggerEvent) in
  let w0 := snd (assign r (set_status running) w) in
  let attempt := executeStep runner (S fuel) r definition stepId input w0 in
  let walk := executeWorkflowSteps runner (S fuel) r definition triggerEvent w in
  findStartSteps definition triggerEvent = [stepId] →
  find_step stepId (steps definition) = Some step →
  errorHandler step = Some h → truthy h = true →
  find_step h (steps definition) = None →
  rejects (outcome_of runner r step stepId input w0) message →
  processNextSteps runner (S fuel) r definition (snd attempt) = (Returned tt, w2) →
  (∀ input' w' message',
     rejects (outcome_of runner r step stepId input' w') message' →
     fst (executeStep runner (S fuel) r definition stepId input' w')
     = Returned (mkResult false None (Some message') None)) ∧
  fst walk = Returned tt ∧
  status (heap (snd walk) r) = completed ∧
  emitted (snd walk) = emitted w2 ++ [ExecutionCompleted (exec_id (heap w r))].
Proof.
  intros input w0 attempt walk Hstart Hfind Hh Ht Hnone Hrej Hrest.
  assert (Hany : ∀ input' w' message',
             rejects (outcome_of runner r step stepId input' w') message' →
             fst (executeStep runner (S fuel) r definition stepId input' w')
             = Returned (mkResult false None (Some message') None)).
  { intros input' w' message' Hrej'. by apply executeStep_dangling_handler with step h. }
  split; [exact Hany|].
  pose proof (Hany input w0 message Hrej) as Hres. fold attempt in Hres.
  change (wp (executeWorkflowSteps runner (S fuel) r definition triggerEvent) w
             (λ res w', res = Returned tt ∧ status (heap w' r) = completed ∧
                        emitted w' = emitted w2 ++ [ExecutionCompleted (exec_id (heap w r))])).
  unfold executeWorkflowSteps. wp_step. unfold deref at 1. wp_step. wp_step.
  rewrite Hstart. wp_step.
  eapply wp_known; [reflexivity|]. cbn beta iota.
  wp_step. cbn [for_each]. wp_step. wp_step.
  eapply wp_known; [apply (surjective_pairing attempt)|].
  rewrite Hres. cbn beta iota. wp_step. wp_step. wp_step.
  eapply wp_known; [exact Hrest|].
  cbn beta iota. repeat engine_step. done.
Qed.

Lemma dangling_handler_absorbs_failure_witness :
  let walk := executeWorkflowSteps always_fails 3 0 dangling order_created
                                   (walking "wf-dangling") in
  fst walk = Returned tt ∧
  status (heap (snd walk) 0) = completed ∧
  map fst (runnerCalls (snd walk)) = ["only"; "only"].
Proof.
  pose (w0 := snd (assign 0 (set_status running) (walking "wf-dangling"))).
  pose (attempt := executeStep always_fails 3 0 dangling "only"
                               (Some (InEvent order_created)) w0).
  pose (rest := processNextSteps always_fails 3 0 dangling (snd attempt)).
  destruct (dangling_handler_absorbs_failure
              always_fails 2 0 dangling order_created "only" dangling_step
              "missing" "boom" (walking "wf-dangling") (snd rest))
    as (_ & Hret & Hst & _);
    [reflexivity|reflexivity|reflexivity|reflexivity|reflexivity
    |left; reflexivity|vm_compute; reflexivity|].
  split; [exact Hret|]. split; [exact Hst|]. vm_compute. reflexivity.
Defined.

(** Both ways out of [executeWorkflowSteps] stamp [completedAt] and set
    [duration] to [completedAt - startedAt]. *)
Lemma executeWorkflowSteps_sets_duration runner fuel r definition triggerEvent w :
  let walk := executeWorkflowSteps runner fuel r definition triggerEvent w in
  let execution := heap (snd walk) r in
  fst walk ≠ Stalled →
  (status execution = completed ∨ status execution = failed) ∧
  completedAt execution = Some (now (snd walk)) ∧
  duration execution = Some (now (snd walk) - startedAt execution)%Z.
Proof.
  intros walk execution.
  change (wp (executeWorkflowSteps runner fuel r definition triggerEvent) w
             (λ res w', res ≠ Stalled →
                        (status (heap w' r) = completed ∨ status (heap w' r) = failed) ∧
                        completedAt (heap w' r) = Some (now w') ∧
                        duration (heap w' r) = Some (now w' - startedAt (heap w' r))%Z)).
  assert (Hfailed : ∀ e w1,
    wp (assign r (set_status failed) ;;; assign r (set_error e) ;;; finish r ;;;
        emit (ExecutionFailed (exec_id (heap w r)) e) ;;; (throw e : M unit)) w1
       (λ res w', res ≠ Stalled →
                  (status (heap w' r) = completed ∨ status (heap w' r) = failed) ∧
                  completedAt (heap w' r) = Some (now w') ∧
                  duration (heap w' r) = Some (now w' - startedAt (heap w' r))%Z)).
  { intros e w1. repeat engine_step. auto. }
  unfold executeWorkflowSteps. wp_step. unfold deref at 1. wp_step. wp_step.
  wp_step. unfold assign at 1. wp_step.
  destruct (findStartSteps definition triggerEvent) as [|s rest].
  - wp_step. apply Hfailed.
  - wp_step. apply wp_any. intros [[]|e|] w1; [|apply Hfailed|done].
    wp_step. apply wp_any. intros [[]|e|] w2; [|apply Hfailed|done].
    repeat engine_step. auto.
Qed.

End EngineFacts.

(* ===================================================================== *)
(** ** Properties of the saga engine *)
(* ===================================================================== *)

Section SagaFacts.

Import SagaEngine SagaScenarios.

(** X24.  Whenever [startSaga] throws, the outer [catch] of [executeSaga] has
    run last: the context's status is [failed] and the last notification is
    "saga.failed". *)
Lemma startSaga_thrown_is_failed orchestrator compensationManager
      generateExecutionId sagaDefinition initialData w message w' :
  startSaga orchestrator compensationManager generateExecutionId
            sagaDefinition initialData w = (Thrown message, w') →
  status (heap w' (nextRef w)) = failed ∧
  ∃ earlier, emitted w' =
             earlier ++ [SagaFailed (generateExecutionId (idsAllocated w)) message].
Proof.
  unfold startSaga, executeSaga, try_finally, try_catch, bind, create, emit, modify.
  cbn.
  match goal with
  | |- context [step_loop ?o ?c ?e ?d ?r ?i ?l ?w] =>
      destruct (step_loop o c e d r i l w) as [[[]| |] w1]
  end; cbn.
  - destruct (failedSteps (heap w1 (nextRef w))); cbn; discriminate.
  - intros [= <- <-]. cbn. rewrite Nat.eqb_refl. split; [done|]. eauto.
  - discriminate.
Qed.

(** C3 (evaluation at the failing input).  In [order_saga] step1
    completes, step2 fails and the compensation of step1 raises.  The
    "compensation_failed" notification is emitted and the error reaches the
    caller of [startSaga], but the status the execution ends with is
    [failed]: the outer handler of [executeSaga] overwrites
    [compensation_failed] and emits "saga.failed". *)
Theorem compensation_failure_ends_failed :
  let run := startSaga second_fails compensation_raises saga_ids
                       order_saga emptyData fresh in
  fst run = Thrown "release failed" ∧
  emitted (snd run) =
    [SagaStarted "saga_1"; SagaStepCompleted "saga_1" "step1";
     SagaCompensationFailed "saga_1" "step2" "release failed";
     SagaFailed "saga_1" "release failed"] ∧
  status (heap (snd run) 0) = failed.
Proof. vm_compute. repeat split; reflexivity. Qed.

Ltac saga_norm :=
  cbn [heap nextRef activeSagas emitted stepCalls compensationCalls idsAllocated now
       fst snd sagaId sagaName status currentStep data completedSteps failedSteps
       startTime compensationRequired set_status set_currentStep set_data
       push_completed push_failed app];
  rewrite ?Nat.eqb_refl;
  cbn [heap nextRef activeSagas emitted stepCalls compensationCalls idsAllocated now
       fst snd sagaId sagaName status currentStep data completedSteps failedSteps
       startTime compensationRequired set_status set_currentStep set_data
       push_completed push_failed app].

Ltac saga_step :=
  first [ wp_step
        | progress unfold assign, emit, deref, newDate ];
  saga_norm.

(** C4.  A three-step saga under the backward strategy in which step1
    completes and declares a (truthy) compensation action [c], and step2
    then fails, either on its dependency check or in the orchestrator.
    Whatever the compensation manager answers, [c] is invoked exactly once
    and no step after step2 reaches the orchestrator; when the
    compensation manager resolves, [startSaga] returns and the execution
    ends [compensated]. *)
Theorem backward_compensation_runs_once
        orchestrator compensationManager generateExecutionId
        (step1 step2 step3 : SagaStep) policy sagaId sagaName c
        initialData result1 w :
  let definition := mkSaga sagaId sagaName [step1; step2; step3] policy in
  let data1 := spread initialData result1 in
  let run := startSaga orchestrator compensationManager generateExecutionId
                       definition initialData w in
  strategy policy = backward →
  compensation step1 = Some c → truthy c = true →
  blocked step1 [] = false →
  orchestrator (length (stepCalls w)) step1 initialData = inl result1 →
  (blocked step2 [id step1] = true ∨
   ∃ message, orchestrator (S (length (stepCalls w))) step2 data1 = inr message) →
  compensationCalls (snd run) = compensationCalls w ++ [c] ∧
  stepCalls (snd run) =
    stepCalls w ++ id step1 :: (if blocked step2 [id step1] then [] else [id step2]) ∧
  (compensationManager (length (compensationCalls w)) c data1 = None →
   fst run = Returned (generateExecutionId (idsAllocated w), nextRef w) ∧
   status (heap (snd run) (nextRef w)) = compensated).
Proof.
  intros definition data1 run Hs Hc Ht Hb1 H1 H2.
  assert (Hf : find_step (id step1) [step1; step2; step3] = Some step1).
  { unfold find_step. cbn. by rewrite bool_decide_eq_true_2. }
  change (wp (startSaga orchestrator compensationManager generateExecutionId
                        definition initialData) w
             (λ res w', compensationCalls w' = compensationCalls w ++ [c] ∧
                        stepCalls w' = stepCalls w ++ id step1 :: (if blocked step2 [id step1] then [] else [id step2]) ∧
                        (compensationManager (length (compensationCalls w)) c data1 = None →
                         res = Returned (generateExecutionId (idsAllocated w), nextRef w) ∧
                         status (heap w' (nextRef w)) = compensated))).
  destruct w as [h nr act em sc cc ids t]. cbn [stepCalls compensationCalls idsAllocated nextRef] in *.
  unfold startSaga. wp_step. unfold create, wp at 1. cbn.
  repeat saga_step. unfold executeSaga. repeat saga_step.
  cbn [steps definition step_loop]. repeat saga_step.
  unfold runStep at 1. repeat saga_step. rewrite Hb1. repeat saga_step.
  unfold executeStep at 1, wp at 1. saga_norm. rewrite H1. saga_norm.
  repeat saga_step.
  assert (Hlen : length (sc ++ [id step1]) = S (length sc)).
  { rewrite length_app. cbn. lia. }
  unfold runStep at 1. repeat saga_step. cbn [app].
  destruct (blocked step2 [id step1]) eqn:Hb2;
    [|destruct H2 as [?|[message Hm]]; [done|]; repeat saga_step;
      unfold executeStep at 1, wp at 1; saga_norm; unfold data1 in Hm; rewrite Hlen, Hm; saga_norm].
  all: repeat saga_step.
  all: unfold handleStepFailure; repeat saga_step.
  all: unfold determineCompensationStrategy; cbn [compensationPolicy definition].
  all: rewrite Hs; unfold executeBackwardCompensation; repeat saga_step.
  all: cbn [rev app for_each steps definition]; rewrite Hf; repeat saga_step.
  all: unfold compensate at 1; rewrite Hc, Ht; repeat saga_step.
  all: unfold executeCompensation, wp at 1; saga_norm; fold data1.
  all: destruct (compensationManager (length cc) c data1) as [e|] eqn:Hcm; saga_norm.
  all: repeat saga_step.
  all: unfold delete_active; saga_norm; rewrite <- ?app_assoc.
  all: repeat split; try done; intros; congruence.
Qed.

Lemma backward_compensation_runs_once_witness :
  let run := startSaga second_fails compensation_ok saga_ids order_saga emptyData fresh in
  compensationCalls (snd run) = ["inventory.release"] ∧
  stepCalls (snd run) = ["step1"; "step2"] ∧
  fst run = Returned ("saga_1", 0) ∧
  status (heap (snd run) 0) = compensated.
Proof.
  destruct (backward_compensation_runs_once
              second_fails compensation_ok saga_ids reserve charge ship
              (mkPolicy backward 3 false) "saga-order" "order"
              "inventory.release" emptyData emptyData fresh)
    as (Hc & Hs & Hr); try reflexivity.
  - right. exists "card declined". reflexivity.
  - destruct (Hr eq_refl) as [Hres Hst]. repeat split; assumption.
Defined.

End SagaFacts.

(* ===================================================================== *)
(** ** Properties of the registry cache *)
(* ===================================================================== *)

Section RegistryCacheFacts.

Import WorkflowRegistryCache RegistryScenarios.

Variable R : Type.
Variable findOneById : R → string → string + option Entity.
Variable findOneByNameVersion : R → string → string → string + option Entity.
Variable getMany : R → Query → string + list Entity.
Variable saveNew : R → Draft → string + R.
Variable save : R → Entity → string + R.

Lemma getWorkflow_hit workflowId workflow (s : Registry R) :
  workflowCache R s !! workflowId = Some workflow →
  getWorkflow R findOneById workflowId s = (Returned (Some workflow), s).
Proof. intros H. unfold getWorkflow, bind, gets. by rewrite H. Qed.

Lemma getWorkflow_caches workflowId workflow (s s1 : Registry R) :
  getWorkflow R findOneById workflowId s = (Returned (Some workflow), s1) →
  workflowCache R s1 !! workflowId = Some workflow.
Proof.
  unfold getWorkflow, bind, gets, query, cache_set, modify, ret.
  destruct (workflowCache R s !! workflowId) as [cached|] eqn:Hc; cbn.
  - intros ?; by simplify_eq.
  - destruct (findOneById (store R s) workflowId) as [e|[found|]]; cbn;
      try discriminate.
    intros ?; simplify_eq. cbn. apply lookup_insert_eq.
Qed.

(** X1.  Once [getWorkflow] has found a workflow, it answers later calls for
    the same id with that workflow from the cache, whatever the repository
    holds by then. *)
Theorem getWorkflow_served_from_cache workflowId workflow (s s1 s2 : Registry R) :
  getWorkflow R findOneById workflowId s = (Returned (Some workflow), s1) →
  workflowCache R s2 = workflowCache R s1 →
  getWorkflow R findOneById workflowId s2 = (Returned (Some workflow), s2).
Proof.
  intros H Hc. apply getWorkflow_hit. rewrite Hc. by apply getWorkflow_caches with s.
Qed.

(** X2.  After a successful [registerWorkflow], [getWorkflow] on the id the
    caller gave returns the registered workflow itself; the repository is
    not consulted and the id the repository generated plays no part. *)
Theorem registerWorkflow_then_getWorkflow workflow (s s1 : Registry R) :
  registerWorkflow R findOneByNameVersion saveNew workflow s = (Returned tt, s1) →
  getWorkflow R findOneById (wf_id (definition workflow)) s1
  = (Returned (Some workflow), s1).
Proof.
  intros H. apply getWorkflow_hit. revert H.
  unfold registerWorkflow, bind, query, command, cache_set, modify, throw.
  destruct (findOneByNameVersion _ _ _) as [e|[existing|]]; try discriminate.
  destruct (saveNew _ _) as [e|r]; try discriminate.
  intros ?; simplify_eq. cbn. apply lookup_insert_eq.
Qed.

(** X3.  [registerWorkflow] refuses a (name, version) pair the repository
    already holds: it throws, saves nothing and leaves the cache alone. *)
Theorem registerWorkflow_duplicate workflow existing (s : Registry R) :
  findOneByNameVersion (store R s) (wf_name (definition workflow))
                       (wf_version (definition workflow)) = inr (Some existing) →
  registerWorkflow R findOneByNameVersion saveNew workflow s
  = (Thrown ("Workflow " +:+ wf_name (definition workflow) +:+ "@" +:+
             wf_version (definition workflow) +:+ " already exists"), s).
Proof.
  intros H. unfold registerWorkflow, bind, query. by rewrite H.
Qed.

(** X4.  A successful [publishWorkflow] hands the repository the stored entity
    with status [published] and [isActive = true], every other column as
    found, and drops the id from the cache, so that the next [getWorkflow]
    reads the repository again.  Other cache entries stay. *)
Theorem publishWorkflow_invalidates workflowId (s s1 : Registry R) :
  publishWorkflow R findOneById save workflowId s = (Returned tt, s1) →
  ∃ e, findOneById (store R s) workflowId = inr (Some e) ∧
       save (store R s) (setPublication published true e) = inr (store R s1) ∧
       workflowCache R s1 = delete workflowId (workflowCache R s) ∧
       getWorkflow R findOneById workflowId s1
       = (let* found := query R (λ r, findOneById r workflowId) in
          match found with
          | None => ret None
          | Some e' => cache_set R workflowId (toWorkflow e') ;;;
                       ret (Some (toWorkflow e'))
          end) s1.
Proof.
  unfold publishWorkflow, republish, bind, query, command, cache_delete, modify, throw.
  destruct (findOneById (store R s) workflowId) as [m|[e|]] eqn:Hf; try discriminate.
  destruct (save _ _) as [m|r] eqn:Hs; try discriminate.
  intros ?; simplify_eq. exists e. cbn. repeat split; try done.
  unfold getWorkflow, bind, gets. cbn. by rewrite lookup_delete_eq.
Qed.

(** X5.  A successful [updateWorkflow] returns what the repository holds after
    the save, never a cached copy, and leaves exactly that in the cache. *)
Theorem updateWorkflow_returns_fresh workflowId updates result (s s1 : Registry R) :
  updateWorkflow R findOneById save workflowId updates s = (Returned result, s1) →
  ∃ found, findOneById (store R s1) workflowId = inr found ∧
           result = toWorkflow <$> found ∧
           workflowCache R s1 !! workflowId = result.
Proof.
  unfold updateWorkflow, getWorkflow, bind, query, command, cache_delete, cache_set,
    modify, throw, gets, ret.
  destruct (findOneById (store R s) workflowId) as [m|[e|]] eqn:Hf; try discriminate.
  destruct (save _ _) as [m|r] eqn:Hs; try discriminate.
  simpl. rewrite lookup_delete_eq. simpl.
  destruct (findOneById r workflowId) as [m|[e'|]] eqn:Hf'; simpl; try discriminate.
  - intros ?; simplify_eq. eexists. cbn. split; [exact Hf'|]. split; [done|].
    apply lookup_insert_eq.
  - intros ?; simplify_eq. eexists. cbn. split; [exact Hf'|]. split; [done|].
    apply lookup_delete_eq.
Qed.

(** X6.  [listWorkflows] prefers the cache to the rows it has just queried: when
    every row's id is cached, it returns the cached workflows, in the order
    of the rows, and changes nothing. *)
Theorem listWorkflows_from_cache filters entities (s : Registry R) :
  getMany (store R s) (build_query filters) = inr entities →
  (∀ e, e ∈ entities → is_Some (workflowCache R s !! entity_id e)) →
  listWorkflows R findOneById getMany filters s
  = (Returned (omap (λ e, workflowCache R s !! entity_id e) entities), s).
Proof.
  intros Hq Hall. unfold listWorkflows, bind at 1, query. rewrite Hq.
  assert (G : ∀ acc, collect R findOneById entities acc s
                     = (Returned (acc ++ omap (λ e, workflowCache R s !! entity_id e)
                                              entities), s)).
  { clear Hq. induction entities as [|e rest IH]; intros acc; cbn [collect].
    - unfold ret. cbn. by rewrite app_nil_r.
    - destruct (Hall e) as [w Hw]; [left|].
      unfold bind. rewrite (getWorkflow_hit _ _ _ Hw). simpl. rewrite Hw.
      rewrite IH; [by rewrite <- app_assoc|]. intros e' He'. apply Hall. by right. }
  apply G.
Qed.

End RegistryCacheFacts.

Section RegistryCacheWitnesses.

Import WorkflowRegistryCache RegistryScenarios.

Lemma getWorkflow_served_from_cache_witness :
  ∃ workflow,
    getWorkflow Table byId "wf-linear"
      (mkRegistry Table (workflowCache Table
                           (snd (getWorkflow Table byId "wf-linear" stocked_registry)))
                  [])
    = (Returned (Some workflow),
       mkRegistry Table (workflowCache Table
                           (snd (getWorkflow Table byId "wf-linear" stocked_registry)))
                  []).
Proof.
  exists (toWorkflow linear_row).
  apply (getWorkflow_served_from_cache Table byId "wf-linear" (toWorkflow linear_row)
           stocked_registry
           (snd (getWorkflow Table byId "wf-linear" stocked_registry))).
  - vm_compute. reflexivity.
  - reflexivity.
Defined.

Lemma registerWorkflow_then_getWorkflow_witness :
  let s1 := snd (registerWorkflow Table byNameVersion insertRow linear_described
                                  empty_registry) in
  getWorkflow Table byId "wf-linear" s1 = (Returned (Some linear_described), s1).
Proof.
  apply (registerWorkflow_then_getWorkflow Table byId byNameVersion insertRow
           linear_described empty_registry).
  vm_compute. reflexivity.
Defined.

Lemma registerWorkflow_duplicate_witness :
  registerWorkflow Table byNameVersion insertRow linear_described stocked_registry
  = (Thrown "Workflow linear@1.0.0 already exists", stocked_registry).
Proof.
  apply (registerWorkflow_duplicate Table byNameVersion insertRow linear_described
           linear_row stocked_registry).
  reflexivity.
Defined.

Lemma publishWorkflow_invalidates_witness :
  ∃ e, byId [linear_row] "wf-linear" = inr (Some e) ∧
       entity_status (setPublication published true e) = published.
Proof.
  destruct (publishWorkflow_invalidates Table byId updateRow "wf-linear"
              stocked_registry
              (snd (publishWorkflow Table byId updateRow "wf-linear" stocked_registry)))
    as (e & He & _).
  - vm_compute. reflexivity.
  - exists e. split; [exact He|reflexivity].
Defined.

Lemma updateWorkflow_returns_fresh_witness :
  let renamed := mkUpdates (Some "renamed") None None None None None in
  let s1 := snd (updateWorkflow Table byId updateRow "wf-linear" renamed
                                stocked_registry) in
  ∃ found, byId (store Table s1) "wf-linear" = inr found ∧
           Some (toWorkflow (applyUpdates renamed linear_row)) = toWorkflow <$> found.
Proof.
  intros renamed s1.
  destruct (updateWorkflow_returns_fresh Table byId updateRow "wf-linear" renamed
              (Some (toWorkflow (applyUpdates renamed linear_row)))
              stocked_registry s1) as (found & Hf & Hr & _).
  - vm_compute. reflexivity.
  - exists found. split; [exact Hf|exact Hr].
Defined.

Lemma listWorkflows_from_cache_witness :
  let s1 := snd (getWorkflow Table byId "wf-linear" stocked_registry) in
  listWorkflows Table byId everything None s1
  = (Returned (omap (λ e, workflowCache Table s1 !! entity_id e) [linear_row]), s1).
Proof.
  apply (listWorkflows_from_cache Table byId everything None [linear_row]).
  - reflexivity.
  - intros e He. apply list_elem_of_singleton in He as ->. vm_compute. eauto.
Defined.

End RegistryCacheWitnesses.

(* ===================================================================== *)
(** ** What a workflow walk never changes *)
(* ===================================================================== *)

Section KeepsRules.

Context {S : Type} (rel : S → S → Prop) `{!PreOrder rel}.

Lemma keeps_ret {A} (a : A) : keeps rel (ret a).
Proof. intros w. reflexivity. Qed.

Lemma keeps_throw {A} e : keeps rel (throw e : Async S A).
Proof. intros w. reflexivity. Qed.

Lemma keeps_stalled {A} : keeps rel (stalled : Async S A).
Proof. intros w. reflexivity. Qed.

Lemma keeps_gets {A} (f : S → A) : keeps rel (gets f).
Proof. intros w. reflexivity. Qed.

Lemma keeps_bind {A B} (m : Async S A) (k : A → Async S B) :
  keeps rel m → (∀ a, keeps rel (k a)) → keeps rel (bind m k).
Proof.
  intros Hm Hk w. unfold bind. specialize (Hm w).
  destruct (m w) as [[a|e|] w1]; cbn in *; [|done|done].
  etrans; [exact Hm|apply Hk].
Qed.

Lemma keeps_try_catch {A} (body : Async S A) handler :
  keeps rel body → (∀ e, keeps rel (handler e)) → keeps rel (try_catch body handler).
Proof.
  intros Hb Hh w. unfold try_catch. specialize (Hb w).
  destruct (body w) as [[a|e|] w1]; cbn in *; [done| |done].
  etrans; [exact Hb|apply Hh].
Qed.

Lemma keeps_for_each {A} (l : list A) (body : A → Async S unit) :
  (∀ x, keeps rel (body x)) → keeps rel (for_each l body).
Proof.
  intros Hb. induction l as [|x l IH]; cbn [for_each].
  - apply keeps_ret.
  - apply keeps_bind; [apply Hb|intros _; exact IH].
Qed.

End KeepsRules.

Section SettlesRules.

Context {S : Type}.

Lemma settles_ret {A} (a : A) : settles (ret a : Async S A).
Proof. by intros w. Qed.

Lemma settles_throw {A} e : settles (throw e : Async S A).
Proof. by intros w. Qed.

Lemma settles_gets {A} (f : S → A) : settles (gets f).
Proof. by intros w. Qed.

Lemma settles_modify (f : S → S) : settles (modify f).
Proof. by intros w. Qed.

Lemma settles_bind {A B} (m : Async S A) (k : A → Async S B) :
  settles m → (∀ a, settles (k a)) → settles (bind m k).
Proof.
  intros Hm Hk w. unfold bind. specialize (Hm w).
  destruct (m w) as [[a|e|] w1]; cbn in *; [apply Hk|done|done].
Qed.

Lemma settles_try_catch {A} (body : Async S A) handler :
  settles body → (∀ e, settles (handler e)) → settles (try_catch body handler).
Proof.
  intros Hb Hh w. unfold try_catch. specialize (Hb w).
  destruct (body w) as [[a|e|] w1]; cbn in *; [done|apply Hh|done].
Qed.

Lemma settles_for_each {A} (l : list A) (body : A → Async S unit) :
  (∀ x, settles (body x)) → settles (for_each l body).
Proof.
  intros Hb. induction l as [|x l IH]; cbn [for_each].
  - apply settles_ret.
  - apply settles_bind; [apply Hb|intros _; exact IH].
Qed.

Lemma wp_keeps_settles {A} (rel : S → S → Prop) (m : Async S A) w
      (Q : Res A → S → Prop) :
  keeps rel m → settles m →
  (∀ res w', rel w w' → res ≠ Stalled → Q res w') → wp m w Q.
Proof. intros Hk Hs HQ. apply HQ; [apply Hk|apply Hs]. Qed.

End SettlesRules.

Section WalkInvariant.

Import WorkflowEngine WorkflowInvariants Scenarios.

Variable clock : Prop.

#[local] Instance steady_preorder : PreOrder (steady clock).
Proof.
  split.
  - intros w. unfold steady. repeat split; try done; try (by exists []; rewrite app_nil_r).
  - intros w1 w2 w3 (He1 & Hi1 & Hn1 & Hh1 & [m1 Hm1] & [c1 Hc1] & Ht1)
                    (He2 & Hi2 & Hn2 & Hh2 & [m2 Hm2] & [c2 Hc2] & Ht2).
    unfold steady. repeat split; try congruence.
    + destruct (Hh1 r) as (? & ? & ?), (Hh2 r) as (? & ? & ?). congruence.
    + destruct (Hh1 r) as (? & ? & ?), (Hh2 r) as (? & ? & ?). congruence.
    + destruct (Hh1 r) as (? & ? & ?), (Hh2 r) as (? & ? & ?). congruence.
    + exists (m1 ++ m2). rewrite Hm2, Hm1. by rewrite app_assoc.
    + exists (c1 ++ c2). rewrite Hc2, Hc1. by rewrite app_assoc.
    + intros Hc. specialize (Ht1 Hc). specialize (Ht2 Hc). lia.
Qed.

Lemma steady_assign r f : mutable_only f → keeps (steady clock) (assign r f).
Proof.
  intros Hf w. unfold assign, modify, with_heap, steady. cbn.
  repeat split; try done; try (by exists []; rewrite app_nil_r); try lia.
  all: destruct (Nat.eqb r0 r) eqn:E; [apply Nat.eqb_eq in E as ->; apply Hf|done].
Qed.

Lemma steady_emit n : keeps (steady clock) (emit n).
Proof.
  intros w. unfold emit, modify, steady. cbn.
  repeat split; try done; try (by exists []; rewrite app_nil_r); try lia.
  by exists [n].
Qed.

Lemma steady_log_call stepId data : keeps (steady clock) (log_call stepId data).
Proof.
  intros w. unfold log_call, modify, steady. cbn.
  repeat split; try done; try (by exists []; rewrite app_nil_r); try lia.
  by exists [(stepId, data)].
Qed.

Lemma steady_advance dt : (clock → (0 ≤ dt)%Z) → keeps (steady clock) (advance dt).
Proof.
  intros Hdt w. unfold advance, modify, steady. cbn.
  repeat split; try done; try (by exists []; rewrite app_nil_r).
  intros Hc. specialize (Hdt Hc). lia.
Qed.

Ltac keeps_step :=
  first
    [ apply (keeps_bind (steady clock)); [|intros ?]
    | apply (keeps_try_catch (steady clock)); [|intros ?]
    | apply (keeps_ret (steady clock))
    | apply (keeps_throw (steady clock))
    | apply (keeps_stalled (steady clock))
    | apply (keeps_gets (steady clock))
    | apply steady_emit
    | apply steady_log_call
    | apply steady_assign; by intros []
    | match goal with
      | |- keeps _ (match ?x with _ => _ end) => destruct x
      end ].

Lemma steady_cancelExecution executionId : keeps (steady clock) (cancelExecution executionId).
Proof. unfold cancelExecution, deref, newDate. repeat keeps_step. Qed.

Variable runner : nat → WorkflowStep → WorkflowContext → Outcome.
Hypothesis runner_clock : clock → monotone_clock runner.

Lemma steady_runStep r step stepId input :
  keeps (steady clock) (runStep runner r step stepId input).
Proof.
  intros w. unfold runStep, bind at 1, gets at 1. cbn beta iota.
  match goal with
  | |- steady _ w (snd (?m w)) => cut (keeps (steady clock) m); [intros H; apply H|]
  end.
  repeat keeps_step.
  - apply steady_advance. intros Hc. apply runner_clock, Hc.
  - apply (keeps_for_each (steady clock)). apply steady_cancelExecution.
Qed.

Lemma steady_executeStep fuel r definition stepId input :
  keeps (steady clock) (executeStep runner fuel r definition stepId input).
Proof.
  revert stepId input. induction fuel as [|fuel IH]; intros stepId input; cbn [executeStep].
  - repeat keeps_step.
  - unfold handleStepError. repeat first [apply steady_runStep|apply IH|keeps_step].
Qed.

Lemma steady_drain fuel r definition pendingSteps :
  keeps (steady clock) (drain runner fuel r definition pendingSteps).
Proof.
  revert pendingSteps. induction fuel as [|fuel IH]; intros [|stepId rest]; cbn [drain];
    unfold deref; repeat first [apply steady_executeStep|apply IH|keeps_step].
Qed.

Lemma steady_executeWorkflowSteps fuel r definition triggerEvent :
  keeps (steady clock) (executeWorkflowSteps runner fuel r definition triggerEvent).
Proof.
  unfold executeWorkflowSteps, deref, finish, newDate, processNextSteps.
  repeat first [ apply steady_drain
               | apply (keeps_for_each (steady clock)); intros ?
               | apply steady_executeStep
               | keeps_step ].
Qed.

End WalkInvariant.

(* ===================================================================== *)
(** ** Further properties of the workflow engine *)
(* ===================================================================== *)

Section MoreEngineFacts.

Import WorkflowEngine WorkflowInvariants Scenarios.

Ltac engine_norm :=
  cbn [heap nextRef executions emitted runnerCalls idsAllocated now fst snd
       exec_id workflowId status currentStep context exec_error startedAt
       completedAt duration set_status set_currentStep set_context set_error
       set_completedAt set_duration with_heap app];
  rewrite ?Nat.eqb_refl;
  cbn [heap nextRef executions emitted runnerCalls idsAllocated now fst snd
       exec_id workflowId status currentStep context exec_error startedAt
       completedAt duration set_status set_currentStep set_context set_error
       set_completedAt set_duration with_heap app].

Ltac engine_step :=
  first [ wp_step
        | progress unfold assign, emit, deref, newDate, advance, log_call, finish ];
  engine_norm.

(** The state in which [executeWorkflow] starts the walk of a definition
    that was found and is valid. *)
Lemma executeWorkflow_walks
      (getWorkflow : string → string + option WorkflowDefinition)
      (validate : WorkflowDefinition → ValidationResult)
      runner generateExecutionId fuel wid triggerEvent ctx definition w :
  getWorkflow wid = inr (Some definition) →
  isValid (validate definition) = true →
  let executionId := generateExecutionId (idsAllocated w) in
  let r := nextRef w in
  let w2 := snd ((create generateExecutionId wid ctx ;;;
                  emit (ExecutionStarted executionId)) w) in
  let run := executeWorkflow getWorkflow validate runner generateExecutionId fuel
                             wid triggerEvent ctx w in
  let walk := executeWorkflowSteps runner fuel r definition triggerEvent w2 in
  snd run = snd walk ∧
  fst run = match fst walk with
            | Returned _ => Returned r
            | Thrown e => Thrown e
            | Stalled => Stalled
            end.
Proof.
  intros Hfound Hvalid executionId r w2 run walk.
  unfold run, executeWorkflow. rewrite Hfound, Hvalid. cbn [negb].
  unfold bind, create, deref, gets, emit, modify, ret. engine_norm.
  change (executeWorkflowSteps runner fuel (nextRef w) definition triggerEvent _)
    with walk.
  destruct walk as [[[]|e|] w3]; done.
Qed.

(** X10.  A definition that is found and valid always leaves an execution in
    the ledger, whether the walk then completes, fails or is still under
    way: [getExecution] on the generated id returns the record, which
    carries that id, the workflow id and the creation time, and the first
    notification emitted is "started". *)
Theorem executeWorkflow_registers_execution
        (getWorkflow : string → string + option WorkflowDefinition)
        (validate : WorkflowDefinition → ValidationResult)
        runner generateExecutionId fuel wid triggerEvent ctx definition w :
  getWorkflow wid = inr (Some definition) →
  isValid (validate definition) = true →
  let executionId := generateExecutionId (idsAllocated w) in
  let w' := snd (executeWorkflow getWorkflow validate runner generateExecutionId fuel
                                 wid triggerEvent ctx w) in
  fst (getExecution executionId w') = Returned (Some (heap w' (nextRef w))) ∧
  exec_id (heap w' (nextRef w)) = executionId ∧
  workflowId (heap w' (nextRef w)) = wid ∧
  startedAt (heap w' (nextRef w)) = now w ∧
  idsAllocated w' = S (idsAllocated w) ∧
  ∃ more, emitted w' = emitted w ++ ExecutionStarted executionId :: more.
Proof.
  intros Hfound Hvalid executionId w'.
  destruct (executeWorkflow_walks getWorkflow validate runner generateExecutionId fuel
              wid triggerEvent ctx definition w Hfound Hvalid) as [Hsnd _].
  unfold w'. rewrite Hsnd. clear Hsnd w'.
  match goal with |- context [executeWorkflowSteps _ _ _ _ _ ?W] => set (w2 := W) end.
  destruct (steady_executeWorkflowSteps False runner (λ H, False_ind _ H) fuel
              (nextRef w) definition triggerEvent w2)
    as (He & Hi & _ & Hh & [more Hm] & _).
  destruct (Hh (nextRef w)) as (Hid & Hwf & Hst).
  unfold getExecution, gets. cbn [fst]. rewrite He, Hid, Hwf, Hst, Hi, Hm.
  unfold w2, create, emit, bind, modify. engine_norm.
  rewrite lookup_insert_eq. cbn. repeat split; try done.
  exists more. by rewrite <- app_assoc.
Qed.

(** X11.  With a clock that does not run backwards, an execution whose walk has
    ended is [completed] or [failed], its [completedAt] is stamped, and its
    [duration] is [completedAt - startedAt], which is not negative. *)
Theorem executeWorkflow_duration
        (getWorkflow : string → string + option WorkflowDefinition)
        (validate : WorkflowDefinition → ValidationResult)
        runner generateExecutionId fuel wid triggerEvent ctx definition w :
  getWorkflow wid = inr (Some definition) →
  isValid (validate definition) = true →
  monotone_clock runner →
  let run := executeWorkflow getWorkflow validate runner generateExecutionId fuel
                             wid triggerEvent ctx w in
  let execution := heap (snd run) (nextRef w) in
  fst run ≠ Stalled →
  (status execution = completed ∨ status execution = failed) ∧
  ∃ t, completedAt execution = Some t ∧
       duration execution = Some (t - startedAt execution)%Z ∧
       (0 ≤ t - startedAt execution)%Z.
Proof.
  intros Hfound Hvalid Hclock run execution Hrun.
  destruct (executeWorkflow_walks getWorkflow validate runner generateExecutionId fuel
              wid triggerEvent ctx definition w Hfound Hvalid) as [Hsnd Hfst].
  fold run in Hsnd, Hfst. unfold execution. rewrite Hsnd.
  match type of Hsnd with
  | _ = snd (executeWorkflowSteps _ _ _ _ _ ?W) => set (w2 := W) in *
  end.
  destruct (executeWorkflowSteps_sets_duration runner fuel (nextRef w) definition
              triggerEvent w2) as (Hst & Hc & Hd).
  { intros E. rewrite E in Hfst. done. }
  split; [exact Hst|]. eexists. split; [exact Hc|]. split; [exact Hd|].
  destruct (steady_executeWorkflowSteps True runner (λ _, Hclock) fuel
              (nextRef w) definition triggerEvent w2)
    as (_ & _ & _ & Hh & _ & _ & Hnow).
  destruct (Hh (nextRef w)) as (_ & _ & ->). specialize (Hnow I).
  revert Hnow. unfold w2, create, emit, bind, modify. engine_norm. lia.
Qed.

(** X12.  A valid definition none of whose triggers matches the event still
    gets an execution record: the call throws, and the record is left
    [failed] with the error message, after a "started" and a "failed"
    notification and without any step runner call. *)
Theorem executeWorkflow_no_matching_trigger
        (getWorkflow : string → string + option WorkflowDefinition)
        (validate : WorkflowDefinition → ValidationResult)
        runner generateExecutionId fuel wid triggerEvent ctx definition w :
  getWorkflow wid = inr (Some definition) →
  isValid (validate definition) = true →
  findStartSteps definition triggerEvent = [] →
  let executionId := generateExecutionId (idsAllocated w) in
  let run := executeWorkflow getWorkflow validate runner generateExecutionId fuel
                             wid triggerEvent ctx w in
  let execution := heap (snd run) (nextRef w) in
  fst run = Thrown "No matching trigger steps found" ∧
  status execution = failed ∧
  exec_error execution = Some "No matching trigger steps found" ∧
  executions (snd run) !! executionId = Some (nextRef w) ∧
  emitted (snd run) =
    emitted w ++ [ExecutionStarted executionId;
                  ExecutionFailed executionId "No matching trigger steps found"] ∧
  runnerCalls (snd run) = runnerCalls w.
Proof.
  intros Hfound Hvalid Hstart executionId run execution.
  destruct (executeWorkflow_walks getWorkflow validate runner generateExecutionId fuel
              wid triggerEvent ctx definition w Hfound Hvalid) as [Hsnd Hfst].
  fold run in Hsnd, Hfst. unfold execution. rewrite Hfst, Hsnd. clear Hsnd Hfst.
  unfold executeWorkflowSteps, finish, assign, emit, newDate, deref, create.
  rewrite Hstart. unfold bind, modify, gets, try_catch, throw. engine_norm.
  rewrite lookup_insert_eq, <- app_assoc. done.
Qed.

(** X13.  A matching trigger whose [type] names no step makes the execution
    fail on its first start step, before any step runner call. *)
Theorem executeWorkflow_trigger_without_step
        (getWorkflow : string → string + option WorkflowDefinition)
        (validate : WorkflowDefinition → ValidationResult)
        runner generateExecutionId fuel wid triggerEvent ctx definition start others w :
  getWorkflow wid = inr (Some definition) →
  isValid (validate definition) = true →
  findStartSteps definition triggerEvent = start :: others →
  find_step start (steps definition) = None →
  let message := "Step " +:+ start +:+ " not found in workflow " +:+ wf_id definition in
  let run := executeWorkflow getWorkflow validate runner generateExecutionId (S fuel)
                             wid triggerEvent ctx w in
  let execution := heap (snd run) (nextRef w) in
  fst run = Thrown message ∧
  status execution = failed ∧
  exec_error execution = Some message ∧
  currentStep execution = None ∧
  runnerCalls (snd run) = runnerCalls w.
Proof.
  intros Hfound Hvalid Hstart Hnone message run execution.
  destruct (executeWorkflow_walks getWorkflow validate runner generateExecutionId
              (S fuel) wid triggerEvent ctx definition w Hfound Hvalid) as [Hsnd Hfst].
  fold run in Hsnd, Hfst. unfold execution. rewrite Hfst, Hsnd. clear Hsnd Hfst.
  unfold executeWorkflowSteps, finish, assign, emit, newDate, deref, create.
  rewrite Hstart. cbn [for_each executeStep]. rewrite Hnone.
  unfold bind, modify, gets, try_catch, throw. engine_norm. done.
Qed.

(** X14.  [findStartSteps] selects by event type alone: the [conditions] and
    [filters] of a trigger never exclude it. *)
Theorem findStartSteps_by_event_type definition triggerEvent :
  findStartSteps definition triggerEvent
  = map trigger_type
        (List.filter (λ trigger, bool_decide (eventType trigger = event_type triggerEvent))
                     (triggers definition)).
Proof.
  unfold findStartSteps. f_equal. apply filter_ext. intros trigger.
  unfold evaluateTriggerConditions. destruct (conditions trigger) as [cs|].
  - assert (forallb (λ _ : string, true) cs = true) as ->
        by (induction cs; [done|cbn; auto]).
    apply andb_true_r.
  - apply andb_true_r.
Qed.

(** X16.  Pending step ids that name no step of the definition are dropped one
    by one, without error, state change or step runner call. *)
Theorem drain_skips_unknown_steps runner fuel r definition unknown rest w :
  (∀ stepId, stepId ∈ unknown → find_step stepId (steps definition) = None) →
  drain runner (length unknown + fuel) r definition (unknown ++ rest) w
  = drain runner fuel r definition rest w.
Proof.
  intros Hall. induction unknown as [|stepId unknown IH]; [done|].
  cbn [length Nat.add app drain]. unfold bind at 1, deref at 1, gets at 1.
  rewrite (Hall stepId) by left. apply IH. intros s Hs. apply Hall. by right.
Qed.

(** A served [cancelExecution] call changes nothing but the status and
    [completedAt] of execution objects and the emitted notifications. *)
Lemma cancelExecution_touches executionId w :
  ∃ w', cancelExecution executionId w = (Returned tt, w') ∧
        runnerCalls w' = runnerCalls w ∧ now w' = now w ∧
        ∀ r, context (heap w' r) = context (heap w r) ∧
             currentStep (heap w' r) = currentStep (heap w r).
Proof.
  unfold cancelExecution, bind, gets, deref.
  destruct (executions w !! executionId) as [r|]; [|by eexists].
  cbn. destruct (status (heap w r)); try by eexists.
  eexists. split; [reflexivity|]. cbn. repeat split; try done.
  all: destruct (Nat.eqb r0 r) eqn:E; [apply Nat.eqb_eq in E as ->|]; cbn;
    rewrite ?Nat.eqb_refl, ?E; done.
Qed.

Lemma cancels_touch ids w :
  ∃ w', for_each ids cancelExecution w = (Returned tt, w') ∧
        runnerCalls w' = runnerCalls w ∧ now w' = now w ∧
        ∀ r, context (heap w' r) = context (heap w r) ∧
             currentStep (heap w' r) = currentStep (heap w r).
Proof.
  revert w. induction ids as [|i ids IH]; intros w; cbn [for_each].
  - by eexists.
  - destruct (cancelExecution_touches i w) as (w1 & E1 & ? & ? & H1).
    destruct (IH w1) as (w2 & E2 & ? & ? & H2).
    exists w2. unfold bind. rewrite E1, E2. repeat split; try congruence.
    all: destruct (H1 r) as [? ?], (H2 r) as [? ?]; congruence.
Qed.

(** An attempt that succeeds: one step runner call, the returned data
    spread over the context. *)
Lemma runStep_resolved runner r step stepId input result w :
  ran (outcome_of runner r step stepId input w) = inl result →
  saved (outcome_of runner r step stepId input w) = None →
  ∃ w', runStep runner r step stepId input w = (Returned result, w') ∧
        context (heap w' r) = match result_data result with
                              | Some d => spread (context (heap w r)) d
                              | None => context (heap w r)
                              end ∧
        currentStep (heap w' r) = currentStep (heap w r) ∧
        runnerCalls w' = runnerCalls w ++ [(stepId, runnerData input (heap w r))].
Proof.
  intros Hran Hsaved. unfold runStep.
  set (o := outcome_of runner r step stepId input w) in *.
  unfold bind, gets, log_call, advance, modify. fold o. cbn beta iota.
  engine_norm.
  match goal with |- context [for_each (cancels o) cancelExecution ?W] =>
    destruct (cancels_touch (cancels o) W) as (w1 & E & Hc & _ & Hh) end.
  rewrite E, Hran. cbn [runnerCalls heap] in Hc, Hh. destruct (Hh r) as [Hctx Hcur].
  destruct (result_data result) as [d|]; unfold assign, modify, ret, with_heap;
    rewrite Hsaved; cbn; eexists; (split; [reflexivity|]); cbn;
    rewrite ?Nat.eqb_refl; cbn; rewrite ?Hctx; done.
Qed.

(** X17.  When a step runs without failing, [executeStep] returns the runner's
    result after a single call, leaves [currentStep] on the step, and
    spreads the returned data over the execution context: keys of the result
    replace those already there. *)
Theorem executeStep_merges_data runner fuel r definition stepId step input result w :
  let o := outcome_of runner r step stepId input w in
  find_step stepId (steps definition) = Some step →
  ran o = inl result → saved o = None →
  ∃ w', executeStep runner (S fuel) r definition stepId input w = (Returned result, w') ∧
        context (heap w' r) = match result_data result with
                              | Some d => spread (context (heap w r)) d
                              | None => context (heap w r)
                              end ∧
        currentStep (heap w' r) = Some stepId ∧
        runnerCalls w' = runnerCalls w ++ [(stepId, runnerData input (heap w r))].
Proof.
  intros o Hfind Hran Hsaved. cbn [executeStep]. rewrite Hfind.
  unfold bind at 1, assign at 1, modify at 1.
  match goal with |- context [try_catch _ _ ?W] => set (w0 := W) end.
  assert (Ho : outcome_of runner r step stepId input w0 = o).
  { unfold outcome_of, w0. engine_norm. destruct input; reflexivity. }
  destruct (runStep_resolved runner r step stepId input result w0)
    as (w' & E & Hctx & Hcur & Hcalls); [by rewrite Ho..|].
  exists w'. unfold try_catch. rewrite E. split; [done|].
  rewrite Hctx, Hcur, Hcalls. unfold w0. engine_norm. destruct input; done.
Qed.

(** X18.  When a step fails and its error handler is a step of the definition,
    the handler is run with the error as its input, and if the handler
    succeeds its result is returned as the result of the failed step, with
    [currentStep] left on the handler. *)
Theorem error_handler_result_replaces_failure
        runner fuel r definition stepId step h hstep input message result w :
  find_step stepId (steps definition) = Some step →
  errorHandler step = Some h → truthy h = true →
  find_step h (steps definition) = Some hstep →
  rejects (outcome_of runner r step stepId input w) message →
  (∀ n ctx, ran (runner n hstep ctx) = inl result ∧ saved (runner n hstep ctx) = None) →
  ∃ w', executeStep runner (S (S fuel)) r definition stepId input w
        = (Returned result, w') ∧
        runnerCalls w' = runnerCalls w ++ [(stepId, runnerData input (heap w r));
                                           (h, OfInput (InError message))] ∧
        currentStep (heap w' r) = Some h.
Proof.
  intros Hfind Hh Ht Hhstep Hrej Hok.
  cbn [executeStep]. rewrite Hfind.
  unfold bind at 1, assign at 1, modify at 1.
  match goal with |- context [try_catch _ _ ?W] => set (w0 := W) end.
  destruct (runStep_rejected runner r step stepId input message w0) as (w1 & E & Hc1 & _).
  { replace (outcome_of runner r step stepId input w0)
      with (outcome_of runner r step stepId input w); [done|].
    unfold outcome_of, w0. engine_norm. destruct input; reflexivity. }
  unfold try_catch at 1. rewrite E. unfold truthy_opt, handleStepError.
  rewrite Hh, Ht, Hhstep. cbn [executeStep]. rewrite ?Hhstep.
  unfold bind at 1, assign at 1, modify at 1.
  match goal with |- context [try_catch _ _ ?W] => set (w2 := W) end.
  destruct (runStep_resolved runner r hstep h (Some (InError message)) result w2)
    as (w' & E' & _ & Hcur & Hc2); [apply Hok..|].
  exists w'. unfold try_catch. rewrite E'. split; [done|].
  rewrite Hc2, Hcur. unfold w2. engine_norm. rewrite Hc1. unfold w0. engine_norm.
  rewrite <- app_assoc. split; [|done]. destruct input; done.
Qed.

(** X20.  Cancelling twice is cancelling once: the second [cancelExecution]
    finds the execution no longer running and does nothing. *)
Theorem cancelExecution_twice executionId w :
  (cancelExecution executionId ;;; cancelExecution executionId) w
  = cancelExecution executionId w.
Proof.
  unfold bind at 1.
  destruct (executions w !! executionId) as [r|] eqn:Hr.
  - destruct (status (heap w r)) eqn:Hs.
    2: { destruct (cancelExecution_running w executionId r Hr Hs)
           as (w' & E & Hst & _).
         rewrite E. cbn beta iota.
         rewrite (cancelExecution_not_running w' executionId r).
         - done.
         - revert E. unfold cancelExecution, bind, gets, deref. rewrite Hr. cbn.
           rewrite Hs. cbn. intros [= <-]. exact Hr.
         - rewrite Hst. done. }
    all: rewrite (cancelExecution_not_running w executionId r Hr) by congruence.
    all: apply cancelExecution_not_running with r; [done|congruence].
  - rewrite (cancelExecution_unknown w executionId Hr).
    by apply cancelExecution_unknown.
Qed.

(** X19.  [cancelExecution] never throws, and it changes nothing unless the id
    is in the ledger and the execution is running: unknown, pending and
    terminal executions are left exactly as they are, with no
    notification. *)
Theorem cancelExecution_no_op_unless_running executionId w :
  fst (cancelExecution executionId w) = Returned tt ∧
  ((∃ r, executions w !! executionId = Some r ∧ status (heap w r) = running) ∨
   snd (cancelExecution executionId w) = w).
Proof.
  destruct (executions w !! executionId) as [r|] eqn:Hr.
  - destruct (status (heap w r)) eqn:Hs.
    2: { destruct (cancelExecution_running w executionId r Hr Hs) as (w' & -> & _).
         split; [done|]. left. by exists r. }
    all: rewrite (cancelExecution_not_running w executionId r Hr) by congruence.
    all: split; [done|by right].
  - rewrite (cancelExecution_unknown w executionId Hr). split; [done|by right].
Qed.

End MoreEngineFacts.

(* ===================================================================== *)
(** ** Further properties of the saga engine *)
(* ===================================================================== *)

Section MoreSagaFacts.

Import SagaEngine SagaInvariants SagaScenarios.

Lemma wp_keeps {S A} (rel : S → S → Prop) (m : Async S A) w (Q : Res A → S → Prop) :
  keeps rel m → (∀ res w', rel w w' → Q res w') → wp m w Q.
Proof. intros Hk HQ. apply HQ, Hk. Qed.

#[local] Instance saga_steady_preorder : PreOrder steady.
Proof.
  split.
  - intros w. unfold steady.
    repeat split; try done; try (by exists []; rewrite app_nil_r).
  - intros w1 w2 w3
           (Ha1 & Hi1 & Hn1 & Ht1 & [s1 Hs1] & [c1 Hc1] & [e1 He1] & Hh1)
           (Ha2 & Hi2 & Hn2 & Ht2 & [s2 Hs2] & [c2 Hc2] & [e2 He2] & Hh2).
    unfold steady. split; [congruence|]. split; [congruence|]. split; [congruence|].
    split; [congruence|].
    split; [exists (s1 ++ s2); rewrite Hs2, Hs1; by rewrite app_assoc|].
    split; [exists (c1 ++ c2); rewrite Hc2, Hc1; by rewrite app_assoc|].
    split; [exists (e1 ++ e2); rewrite He2, He1; by rewrite app_assoc|].
    intros r. destruct (Hh1 r) as (? & ? & ? & [d1 Hd1] & [f1 Hf1]).
    destruct (Hh2 r) as (? & ? & ? & [d2 Hd2] & [f2 Hf2]).
    split; [congruence|]. split; [congruence|]. split; [congruence|]. split.
    + exists (d1 ++ d2). rewrite Hd2, Hd1. by rewrite app_assoc.
    + exists (f1 ++ f2). rewrite Hf2, Hf1. by rewrite app_assoc.
Qed.

#[local] Instance compensating_preorder : PreOrder compensating.
Proof.
  split.
  - intros w. by split.
  - intros w1 w2 w3 [Hs1 Hh1] [Hs2 Hh2]. split; [congruence|].
    intros r. destruct (Hh1 r) as (? & ? & ? & ?), (Hh2 r) as (? & ? & ? & ?).
    repeat split; congruence.
Qed.

Ltac grows := first [ by exists []; rewrite app_nil_r | by eexists ].

Lemma steady_saga_assign r f :
  (∀ c, sagaId (f c) = sagaId c ∧ sagaName (f c) = sagaName c ∧
        startTime (f c) = startTime c ∧
        (∃ more, completedSteps (f c) = completedSteps c ++ more) ∧
        (∃ more, failedSteps (f c) = failedSteps c ++ more)) →
  keeps steady (assign r f).
Proof.
  intros Hf w. unfold assign, modify, steady. cbn.
  repeat split; try done; try grows.
  all: destruct (Nat.eqb r0 r) eqn:E; [apply Nat.eqb_eq in E as ->; apply Hf|grows || done].
Qed.

Lemma steady_saga_emit n : keeps steady (emit n).
Proof.
  intros w. unfold emit, modify, steady. cbn. repeat split; try done; grows.
Qed.

Lemma compensating_assign r f : status_only f → keeps compensating (assign r f).
Proof.
  intros Hf w. unfold assign, modify, compensating. cbn. split; [done|]. intros r0.
  destruct (Nat.eqb r0 r) eqn:E; [apply Nat.eqb_eq in E as ->|done].
  destruct (Hf (heap w r)) as (_ & _ & _ & ? & ? & ? & ?). done.
Qed.

Lemma compensating_emit n : keeps compensating (emit n).
Proof. intros w. by split. Qed.

Variable orchestrator : nat → SagaStep → Data → Data + string.
Variable compensationManager : nat → string → Data → option string.

Lemma steady_saga_executeStep step d : keeps steady (executeStep orchestrator step d).
Proof.
  intros w. unfold executeStep.
  destruct (orchestrator _ _ _); unfold steady; cbn; repeat split; try done; grows.
Qed.

Lemma steady_executeCompensation action d :
  keeps steady (executeCompensation compensationManager action d).
Proof.
  intros w. unfold executeCompensation.
  destruct (compensationManager _ _ _); unfold steady; cbn;
    repeat split; try done; grows.
Qed.

Lemma compensating_executeCompensation action d :
  keeps compensating (executeCompensation compensationManager action d).
Proof.
  intros w. unfold executeCompensation.
  destruct (compensationManager _ _ _); by split.
Qed.

Ltac saga_keeps_step rel :=
  first
    [ apply (keeps_bind rel); [|intros ?]
    | apply (keeps_try_catch rel); [|intros ?]
    | apply (keeps_for_each rel); intros ?
    | apply (keeps_ret rel)
    | apply (keeps_throw rel)
    | apply (keeps_gets rel)
    | apply steady_saga_emit
    | apply compensating_emit
    | apply steady_saga_executeStep
    | apply steady_executeCompensation
    | apply compensating_executeCompensation
    | apply compensating_assign; by intros []
    | apply steady_saga_assign; intros []; cbn; repeat split; grows
    | match goal with
      | |- keeps _ (match ?x with _ => _ end) => destruct x
      end ].

Ltac saga_keeps rel := repeat saga_keeps_step rel.

Lemma steady_handleStepFailure executionId sagaDefinition r failedStep error :
  keeps steady (handleStepFailure compensationManager executionId sagaDefinition r
                                  failedStep error).
Proof.
  unfold handleStepFailure, executeBackwardCompensation, executeForwardCompensation,
    compensate, deref.
  saga_keeps steady.
Qed.

Lemma compensating_handleStepFailure executionId sagaDefinition r failedStep error :
  keeps compensating (handleStepFailure compensationManager executionId sagaDefinition r
                                        failedStep error).
Proof.
  unfold handleStepFailure, executeBackwardCompensation, executeForwardCompensation,
    compensate, deref.
  saga_keeps compensating.
Qed.

Lemma steady_step_loop executionId sagaDefinition r i rest :
  keeps steady (step_loop orchestrator compensationManager executionId sagaDefinition
                          r i rest).
Proof.
  revert i. induction rest as [|step rest IH]; intros i; cbn [step_loop].
  - saga_keeps steady.
  - unfold runStep, deref, newDate.
    repeat first [ apply steady_handleStepFailure | apply IH | saga_keeps_step steady ].
Qed.

Ltac saga_norm :=
  cbn [heap nextRef activeSagas emitted stepCalls compensationCalls idsAllocated now
       fst snd sagaId sagaName status currentStep data completedSteps failedSteps
       startTime compensationRequired set_status set_currentStep set_data
       push_completed push_failed app compensated_with];
  rewrite ?Nat.eqb_refl;
  cbn [heap nextRef activeSagas emitted stepCalls compensationCalls idsAllocated now
       fst snd sagaId sagaName status currentStep data completedSteps failedSteps
       startTime compensationRequired set_status set_currentStep set_data
       push_completed push_failed app compensated_with].

Ltac saga_step :=
  first [ wp_step
        | progress unfold assign, emit, deref, newDate ];
  saga_norm.

Lemma compensated_with_nil w : compensated_with [] w = w.
Proof. destruct w. unfold compensated_with. cbn. by rewrite app_nil_r. Qed.

Lemma compensated_with_app a b w :
  compensated_with b (compensated_with a w) = compensated_with (a ++ b) w.
Proof. unfold compensated_with. cbn. by rewrite app_assoc. Qed.

Lemma declared_cons step l :
  declared (step :: l)
  = match compensation step with
    | Some c => if truthy c then c :: declared l else declared l
    | None => declared l
    end.
Proof.
  unfold declared. cbn.
  destruct (compensation step) as [c|]; [destruct (truthy c)|]; reflexivity.
Qed.

(** With a compensation manager that always resolves, a compensation
    loop invokes every declared action of its steps, in order. *)
Lemma compensate_all r l w :
  (∀ n action d, compensationManager n action d = None) →
  for_each l (compensate compensationManager r) w
  = (Returned tt, compensated_with (declared l) w).
Proof.
  intros Hok. revert w. induction l as [|step l IH]; intros w; cbn [for_each].
  - unfold ret. by rewrite compensated_with_nil.
  - rewrite declared_cons. unfold compensate.
    destruct (compensation step) as [c|]; [destruct (truthy c)|]; unfold bind.
    + unfold deref, gets, executeCompensation. rewrite Hok. cbn.
      rewrite IH. f_equal. apply (compensated_with_app [c]).
    + unfold ret. apply IH.
    + unfold ret. apply IH.
Qed.

Lemma compensate_found_all r all ids w :
  (∀ n action d, compensationManager n action d = None) →
  for_each ids (λ stepId, match find_step stepId all with
                          | Some step => compensate compensationManager r step
                          | None => ret tt
                          end) w
  = (Returned tt, compensated_with (declared (omap (λ stepId, find_step stepId all) ids)) w).
Proof.
  intros Hok. revert w. induction ids as [|stepId ids IH]; intros w;
    cbn [for_each omap list_omap].
  - unfold ret. by rewrite compensated_with_nil.
  - unfold bind. destruct (find_step stepId all) as [step|]; [|apply IH].
    pose proof (compensate_all r [step] w Hok) as H. cbn [for_each] in H.
    unfold bind in H.
    destruct (compensate compensationManager r step w) as [[[]|e|] w1];
      cbn in H; try discriminate.
    injection H as ->. rewrite IH, compensated_with_app. do 2 f_equal.
    rewrite !declared_cons.
    destruct (compensation step) as [c|]; [destruct (truthy c)|]; reflexivity.
Qed.

(** X25.  What [handleStepFailure] compensates, by strategy, when every
    compensation resolves: backward, the declared compensations of the
    completed steps, last completed first; forward, those of the steps that
    follow the current one, in definition order; mixed, nothing at all.  In
    each case the execution is then marked [compensated] and a "compensated"
    notification is emitted. *)
Theorem handleStepFailure_compensates executionId sagaDefinition r failedStep error w :
  (∀ n action d, compensationManager n action d = None) →
  let run := handleStepFailure compensationManager executionId sagaDefinition r
                               failedStep error w in
  fst run = Returned tt ∧
  compensationCalls (snd run)
  = compensationCalls w ++ planned sagaDefinition (heap w r) ∧
  status (heap (snd run) r) = compensated ∧
  emitted (snd run) = emitted w ++ [SagaCompensated executionId (id failedStep)] ∧
  stepCalls (snd run) = stepCalls w.
Proof.
  intros Hok run.
  assert (E : run = (assign r (set_status compensated) ;;;
                     emit (SagaCompensated executionId (id failedStep)))
                      (compensated_with (planned sagaDefinition (heap w r)) w)).
  { unfold run, handleStepFailure, try_catch, planned.
    unfold bind at 1, deref at 1, gets at 1. unfold bind at 1.
    unfold determineCompensationStrategy.
    destruct (strategy (compensationPolicy sagaDefinition)).
    - unfold executeForwardCompensation, bind at 1, deref, gets.
      rewrite (compensate_all r _ w Hok). unfold bind, assign, emit, modify. done.
    - unfold executeBackwardCompensation, bind at 1, deref, gets.
      rewrite (compensate_found_all r _ _ w Hok). unfold bind, assign, emit, modify. done.
    - unfold ret. rewrite compensated_with_nil. unfold bind, assign, emit, modify. done. }
  rewrite E. unfold bind, assign, emit, modify. saga_norm. done.
Qed.

(** With a compensation manager that rejects, a compensation loop stops
    at the first declared action. *)
Lemma compensate_first r l c others message w :
  (∀ n action d, compensationManager n action d = Some message) →
  declared l = c :: others →
  for_each l (compensate compensationManager r) w
  = (Thrown message, compensated_with [c] w).
Proof.
  intros Hno. revert w. induction l as [|step l IH]; intros w; [done|].
  cbn [for_each]. rewrite declared_cons. unfold compensate.
  destruct (compensation step) as [c'|]; [destruct (truthy c')|]; unfold bind.
  - intros [= -> _]. unfold deref, gets, executeCompensation. rewrite Hno. done.
  - intros H. unfold ret. by apply IH.
  - intros H. unfold ret. by apply IH.
Qed.

Lemma compensate_found_first r all ids c others message w :
  (∀ n action d, compensationManager n action d = Some message) →
  declared (omap (λ stepId, find_step stepId all) ids) = c :: others →
  for_each ids (λ stepId, match find_step stepId all with
                          | Some step => compensate compensationManager r step
                          | None => ret tt
                          end) w
  = (Thrown message, compensated_with [c] w).
Proof.
  intros Hno. revert w. induction ids as [|stepId ids IH]; intros w; [done|].
  cbn [for_each omap list_omap]. unfold bind.
  destruct (find_step stepId all) as [step|]; [|intros H; by apply IH].
  rewrite declared_cons. unfold compensate.
  destruct (compensation step) as [c'|]; [destruct (truthy c')|].
  - intros [= -> _]. unfold bind, deref, gets, executeCompensation. rewrite Hno. done.
  - intros H. unfold ret. by apply IH.
  - intros H. unfold ret. by apply IH.
Qed.

(** X26.  A compensation that raises ends the compensation walk: of the planned
    actions only the first is invoked, [handleStepFailure] marks the
    execution [compensation_failed], emits "compensation_failed" and
    rethrows the error. *)
Theorem handleStepFailure_aborts_on_first_failure
        executionId sagaDefinition r failedStep error message c others w :
  (∀ n action d, compensationManager n action d = Some message) →
  planned sagaDefinition (heap w r) = c :: others →
  let run := handleStepFailure compensationManager executionId sagaDefinition r
                               failedStep error w in
  fst run = Thrown message ∧
  compensationCalls (snd run) = compensationCalls w ++ [c] ∧
  status (heap (snd run) r) = compensation_failed ∧
  emitted (snd run)
  = emitted w ++ [SagaCompensationFailed executionId (id failedStep) message].
Proof.
  intros Hno Hplan run.
  assert (E : run = (assign r (set_status compensation_failed) ;;;
                     emit (SagaCompensationFailed executionId (id failedStep) message) ;;;
                     throw message)
                      (compensated_with [c] w)).
  { unfold run, handleStepFailure, try_catch.
    unfold bind at 1, deref at 1, gets at 1. unfold bind at 1.
    unfold determineCompensationStrategy. unfold planned in Hplan.
    destruct (strategy (compensationPolicy sagaDefinition)); [| |done].
    - unfold executeForwardCompensation, bind at 1, deref, gets.
      rewrite (compensate_first r _ c others message w Hno Hplan). done.
    - unfold executeBackwardCompensation, bind at 1, deref, gets.
      rewrite (compensate_found_first r _ _ c others message w Hno Hplan). done. }
  rewrite E. unfold bind, assign, emit, modify, throw. saga_norm. done.
Qed.

Ltac saga_settles_step :=
  first
    [ apply settles_bind; [|intros ?]
    | apply settles_try_catch; [|intros ?]
    | apply settles_for_each; intros ?
    | apply settles_ret
    | apply settles_throw
    | apply settles_gets
    | apply settles_modify
    | match goal with
      | |- settles (match ?x with _ => _ end) => destruct x
      end ].

Lemma settles_executeStep step d : settles (executeStep orchestrator step d).
Proof. intros w. unfold executeStep. by destruct (orchestrator _ _ _). Qed.

Lemma settles_executeCompensation action d :
  settles (executeCompensation compensationManager action d).
Proof. intros w. unfold executeCompensation. by destruct (compensationManager _ _ _). Qed.

Lemma settles_handleStepFailure executionId sagaDefinition r failedStep error :
  settles (handleStepFailure compensationManager executionId sagaDefinition r
                             failedStep error).
Proof.
  unfold handleStepFailure, executeBackwardCompensation, executeForwardCompensation,
    compensate, deref, assign, emit.
  repeat first [apply settles_executeCompensation|saga_settles_step].
Qed.

Lemma settles_step_loop executionId sagaDefinition r i rest :
  settles (step_loop orchestrator compensationManager executionId sagaDefinition
                     r i rest).
Proof.
  revert i. induction rest as [|step rest IH]; intros i; cbn [step_loop].
  - apply settles_ret.
  - unfold runStep, deref, newDate, assign, emit.
    repeat first [ apply settles_handleStepFailure | apply settles_executeStep
                 | apply IH | saga_settles_step ].
Qed.

(** X23.  When [startSaga] is over, however it ended, the execution is gone
    from [activeSagas]: [getSagaExecution] on the id it generated finds
    nothing, and the other entries are as before. *)
Theorem startSaga_leaves_no_entry generateExecutionId sagaDefinition initialData w :
  let executionId := generateExecutionId (idsAllocated w) in
  let run := startSaga orchestrator compensationManager generateExecutionId
                       sagaDefinition initialData w in
  fst run ≠ Stalled ∧
  activeSagas (snd run) = delete executionId (activeSagas w) ∧
  fst (getSagaExecution executionId (snd run)) = Returned None.
Proof.
  intros executionId run.
  change (wp (startSaga orchestrator compensationManager generateExecutionId
                        sagaDefinition initialData) w
             (λ res w', res ≠ Stalled ∧
                        activeSagas w' = delete executionId (activeSagas w) ∧
                        fst (getSagaExecution executionId w') = Returned None)).
  unfold startSaga. wp_step. unfold create at 1, wp at 1. cbn [fst snd].
  repeat saga_step. unfold executeSaga. wp_step. wp_step.
  eapply (wp_keeps_settles steady).
  { repeat first [apply steady_step_loop|saga_keeps_step steady]. }
  { unfold deref, assign, emit.
    repeat first [apply settles_step_loop|saga_settles_step]. }
  intros res w3 (Ha & _) Hres. cbn [activeSagas] in Ha.
  destruct res as [[]|e|]; [wp_step|repeat saga_step|done].
  all: unfold delete_active, getSagaExecution, gets; cbn [activeSagas fst snd].
  all: rewrite Ha, delete_insert_eq, lookup_delete_eq; done.
Qed.

Lemma wp_mono {S A} (m : Async S A) w (Q Q' : Res A → S → Prop) :
  wp m w Q → (∀ res w', Q res w' → Q' res w') → wp m w Q'.
Proof. unfold wp. auto. Qed.

(** The step loop when no step is blocked and every step resolves. *)
Lemma step_loop_completes executionId sagaDefinition r rest :
  (∀ n step d, ∃ result, orchestrator n step d = inl result) →
  ∀ before i w,
    completedSteps (heap w r) = map id before →
    failedSteps (heap w r) = [] →
    (∀ b step a, rest = b ++ step :: a → blocked step (map id (before ++ b)) = false) →
    wp (step_loop orchestrator compensationManager executionId sagaDefinition r i rest) w
       (λ res w', res = Returned tt ∧
                  completedSteps (heap w' r) = map id (before ++ rest) ∧
                  failedSteps (heap w' r) = [] ∧
                  status (heap w' r) = status (heap w r) ∧
                  stepCalls w' = stepCalls w ++ map id rest ∧
                  compensationCalls w' = compensationCalls w ∧
                  emitted w' = emitted w ++
                               map (λ step, SagaStepCompleted executionId (id step)) rest).
Proof.
  intros Hok. induction rest as [|step rest IH]; intros before i w Hdone Hfailed Hdeps;
    cbn [step_loop].
  - wp_step. rewrite !app_nil_r. done.
  - repeat saga_step. unfold runStep. repeat saga_step. rewrite Hdone.
    rewrite <- (app_nil_r before) at 1. rewrite (Hdeps [] step rest eq_refl).
    repeat saga_step. unfold executeStep at 1, wp at 1. saga_norm.
    destruct (Hok (length (stepCalls w)) step (data (heap w r))) as [result ->].
    saga_norm. repeat saga_step.
    eapply wp_mono.
    + apply (IH (before ++ [step])).
      * saga_norm. rewrite Hdone, map_app. done.
      * saga_norm. exact Hfailed.
      * intros b s a ->. rewrite <- app_assoc. apply (Hdeps (step :: b) s a). done.
    + cbn beta. saga_norm. intros res w' (-> & Hc & Hf & Hs & Hsc & Hcc & Hem).
      rewrite Hc, Hf, Hs, Hsc, Hcc, Hem. rewrite <- !app_assoc. done.
Qed.

(** X21.  A saga none of whose steps is blocked by its dependencies and all of
    whose steps resolve: every step is run once, in definition order, no
    compensation is invoked, and the execution ends [completed] with
    [completedSteps] listing the step ids in order. *)
Theorem startSaga_completes generateExecutionId sagaDefinition initialData w :
  (∀ n step d, ∃ result, orchestrator n step d = inl result) →
  dependencies_in_order (steps sagaDefinition) →
  let executionId := generateExecutionId (idsAllocated w) in
  let run := startSaga orchestrator compensationManager generateExecutionId
                       sagaDefinition initialData w in
  let executionContext := heap (snd run) (nextRef w) in
  fst run = Returned (executionId, nextRef w) ∧
  status executionContext = completed ∧
  completedSteps executionContext = map id (steps sagaDefinition) ∧
  failedSteps executionContext = [] ∧
  stepCalls (snd run) = stepCalls w ++ map id (steps sagaDefinition) ∧
  compensationCalls (snd run) = compensationCalls w ∧
  emitted (snd run)
  = emitted w ++ SagaStarted executionId ::
      map (λ step, SagaStepCompleted executionId (id step)) (steps sagaDefinition) ++
      [SagaCompleted executionId].
Proof.
  intros Hok Hdeps executionId run executionContext.
  change (wp (startSaga orchestrator compensationManager generateExecutionId
                        sagaDefinition initialData) w
             (λ res w',
                res = Returned (executionId, nextRef w) ∧
                status (heap w' (nextRef w)) = completed ∧
                completedSteps (heap w' (nextRef w)) = map id (steps sagaDefinition) ∧
                failedSteps (heap w' (nextRef w)) = [] ∧
                stepCalls w' = stepCalls w ++ map id (steps sagaDefinition) ∧
                compensationCalls w' = compensationCalls w ∧
                emitted w'
                = emitted w ++ SagaStarted executionId ::
                    map (λ step, SagaStepCompleted executionId (id step))
                        (steps sagaDefinition) ++ [SagaCompleted executionId])).
  unfold startSaga. wp_step. unfold create at 1, wp at 1. cbn [fst snd].
  repeat saga_step. unfold executeSaga. wp_step. wp_step. wp_step.
  eapply wp_mono.
  - apply (step_loop_completes _ _ _ _ Hok []); saga_norm; try done.
  - cbn beta. saga_norm. intros res w' (-> & Hc & Hf & Hs & Hsc & Hcc & Hem).
    repeat saga_step. rewrite Hf. repeat saga_step. unfold delete_active. saga_norm.
    rewrite Hc, Hf, Hsc, Hcc, Hem. rewrite <- !app_assoc. done.
Qed.

Lemma blocked_without_completed step dep deps :
  dependencies step = Some (dep :: deps) → blocked step [] = true.
Proof.
  intros H. unfold blocked, checkDependencies, includes. rewrite H. cbn.
  rewrite bool_decide_eq_false_2; [done|]. apply not_elem_of_nil.
Qed.

(** How [handleStepFailure] ends: returning, with the execution marked
    [compensated], or throwing, with the execution marked
    [compensation_failed]. *)
Lemma handleStepFailure_status executionId sagaDefinition r failedStep error w :
  let run := handleStepFailure compensationManager executionId sagaDefinition r
                               failedStep error w in
  match fst run with
  | Returned _ => status (heap (snd run) r) = compensated
  | Thrown _ => status (heap (snd run) r) = compensation_failed
  | Stalled => False
  end.
Proof.
  intros run.
  change (wp (handleStepFailure compensationManager executionId sagaDefinition r
                                failedStep error) w
             (λ res w', match res with
                        | Returned _ => status (heap w' r) = compensated
                        | Thrown _ => status (heap w' r) = compensation_failed
                        | Stalled => False
                        end)).
  unfold handleStepFailure. wp_step. wp_step. unfold deref at 1. wp_step. wp_step.
  eapply (wp_keeps_settles (λ _ _, True)).
  { by intros ?. }
  { unfold determineCompensationStrategy, executeBackwardCompensation,
      executeForwardCompensation, compensate, deref.
    repeat first [apply settles_executeCompensation|saga_settles_step]. }
  intros [[]|e|] w' _ Hres; [| |done]; repeat saga_step; done.
Qed.

(** X22.  A saga whose first step declares a dependency never runs a step: the
    first step fails its dependency check, since nothing is completed yet,
    the failure is recorded and only compensation follows. *)
Theorem startSaga_first_step_blocked
        generateExecutionId sagaDefinition initialData first others dep deps w :
  steps sagaDefinition = first :: others →
  dependencies first = Some (dep :: deps) →
  let run := startSaga orchestrator compensationManager generateExecutionId
                       sagaDefinition initialData w in
  let executionContext := heap (snd run) (nextRef w) in
  stepCalls (snd run) = stepCalls w ∧
  completedSteps executionContext = [] ∧
  failedSteps executionContext
  = [mkFailed (id first) (name first)
              ("Dependencies not met for step: " +:+ name first) (now w)] ∧
  (status executionContext = compensated ∨ status executionContext = failed).
Proof.
  intros Hsteps Hdep run executionContext.
  change (wp (startSaga orchestrator compensationManager generateExecutionId
                        sagaDefinition initialData) w
             (λ res w',
                stepCalls w' = stepCalls w ∧
                completedSteps (heap w' (nextRef w)) = [] ∧
                failedSteps (heap w' (nextRef w))
                = [mkFailed (id first) (name first)
                            ("Dependencies not met for step: " +:+ name first) (now w)] ∧
                (status (heap w' (nextRef w)) = compensated ∨
                 status (heap w' (nextRef w)) = failed))).
  unfold startSaga. wp_step. unfold create at 1, wp at 1. cbn [fst snd].
  repeat saga_step. unfold executeSaga. wp_step. wp_step. wp_step.
  rewrite Hsteps. cbn [step_loop]. repeat saga_step.
  unfold runStep. repeat saga_step.
  rewrite (blocked_without_completed first dep deps Hdep). repeat saga_step.
  match goal with
  | |- wp (handleStepFailure _ ?e ?d ?r ?f ?m) ?W _ =>
      pose proof (handleStepFailure_status e d r f m W) as Hst;
      pose proof (compensating_handleStepFailure e d r f m W) as [Hsc Hh];
      eapply (wp_known _ _ (fst (handleStepFailure compensationManager e d r f m W))
                       (snd (handleStepFailure compensationManager e d r f m W)));
        [apply surjective_pairing|];
      destruct (handleStepFailure compensationManager e d r f m W) as [res w']
  end.
  cbn [fst snd] in *. destruct (Hh (nextRef w)) as (_ & _ & Hc & Hf).
  revert Hc Hf Hsc. saga_norm. intros Hc Hf Hsc.
  destruct res as [[]|e|]; [|repeat saga_step|done].
  - repeat saga_step. rewrite Hf. repeat saga_step. unfold delete_active. saga_norm.
    repeat split; try done. by left.
  - unfold delete_active. saga_norm. repeat split; try done. by right.
Qed.

End MoreSagaFacts.

(* ===================================================================== *)
(** ** The properties above at concrete inputs *)
(* ===================================================================== *)

Section EngineWitnesses.

Import WorkflowEngine WorkflowInvariants Scenarios MoreScenarios.

Lemma executeWorkflow_registers_execution_witness :
  let w' := snd (executeWorkflow known WorkflowRegistry.validateWorkflow always_calm
                                 exec_ids 20 "wf-linear" order_created None fresh) in
  fst (getExecution "exec_1" w') = Returned (Some (heap w' 0)) ∧
  exec_id (heap w' 0) = "exec_1".
Proof.
  destruct (executeWorkflow_registers_execution
              known WorkflowRegistry.validateWorkflow always_calm exec_ids 20
              "wf-linear" order_created None linear fresh)
    as (Hget & Hid & _); [reflexivity|reflexivity|].
  split; [exact Hget|exact Hid].
Defined.

Lemma executeWorkflow_duration_witness :
  let run := executeWorkflow known WorkflowRegistry.validateWorkflow always_calm
                             exec_ids 20 "wf-linear" order_created None fresh in
  ∃ t, completedAt (heap (snd run) 0) = Some t ∧
       (0 ≤ t - startedAt (heap (snd run) 0))%Z.
Proof.
  destruct (executeWorkflow_duration
              known WorkflowRegistry.validateWorkflow always_calm exec_ids 20
              "wf-linear" order_created None linear fresh)
    as (_ & t & Hc & _ & Hpos).
  - reflexivity.
  - reflexivity.
  - intros n step ctx. cbn. lia.
  - vm_compute. discriminate.
  - exists t. split; [exact Hc|exact Hpos].
Defined.

Lemma executeWorkflow_no_matching_trigger_witness :
  let run := executeWorkflow known WorkflowRegistry.validateWorkflow always_calm
                             exec_ids 20 "wf-linear" order_cancelled None fresh in
  fst run = Thrown "No matching trigger steps found" ∧
  status (heap (snd run) 0) = failed.
Proof.
  destruct (executeWorkflow_no_matching_trigger
              known WorkflowRegistry.validateWorkflow always_calm exec_ids 20
              "wf-linear" order_cancelled None linear fresh)
    as (Hres & Hst & _); [reflexivity|reflexivity|reflexivity|].
  split; [exact Hres|exact Hst].
Defined.

Lemma executeWorkflow_trigger_without_step_witness :
  let run := executeWorkflow known WorkflowRegistry.validateWorkflow always_calm
                             exec_ids 20 "wf-misdirected" order_created None fresh in
  fst run = Thrown "Step start not found in workflow wf-misdirected" ∧
  runnerCalls (snd run) = [].
Proof.
  destruct (executeWorkflow_trigger_without_step
              known WorkflowRegistry.validateWorkflow always_calm exec_ids 19
              "wf-misdirected" order_created None misdirected "start" [] fresh)
    as (Hres & _ & _ & _ & Hcalls);
    [reflexivity|reflexivity|reflexivity|reflexivity|].
  split; [exact Hres|exact Hcalls].
Defined.

Lemma drain_skips_unknown_steps_witness :
  drain always_calm 5 0 linear ["ghost"; "phantom"; "step3"] (walking "wf-linear")
  = drain always_calm 3 0 linear ["step3"] (walking "wf-linear").
Proof.
  apply (drain_skips_unknown_steps always_calm 3 0 linear ["ghost"; "phantom"]
           ["step3"] (walking "wf-linear")).
  intros stepId Hin.
  apply elem_of_cons in Hin as [->|Hin]; [reflexivity|].
  apply list_elem_of_singleton in Hin as ->. reflexivity.
Defined.

Lemma executeStep_merges_data_witness :
  ∃ w', executeStep enriching 1 0 linear "step1" None (walking "wf-linear")
        = (Returned with_receipt, w') ∧
        completedSteps (context (heap w' 0)) = Some ["step1"] ∧
        currentStep (heap w' 0) = Some "step1".
Proof.
  destruct (executeStep_merges_data enriching 0 0 linear "step1"
              (plain_step "step1" (Some ["step2"]) None) None with_receipt
              (walking "wf-linear"))
    as (w' & E & Hctx & Hcur & _); [reflexivity|reflexivity|reflexivity|].
  exists w'. split; [exact E|]. split; [rewrite Hctx; reflexivity|exact Hcur].
Defined.

Lemma error_handler_result_replaces_failure_witness :
  ∃ w', executeStep charge_fails 2 0 recovering "charge" None (walking "wf-recovering")
        = (Returned succeeded, w') ∧
        map fst (runnerCalls w') = ["charge"; "refund"] ∧
        currentStep (heap w' 0) = Some "refund".
Proof.
  destruct (error_handler_result_replaces_failure
              charge_fails 0 0 recovering "charge" charge_step "refund" refund_step
              None "card declined" succeeded (walking "wf-recovering"))
    as (w' & E & Hcalls & Hcur);
    [reflexivity|reflexivity|reflexivity|reflexivity|left; reflexivity
    |intros n ctx; split; reflexivity|].
  exists w'. split; [exact E|]. split; [rewrite Hcalls; reflexivity|exact Hcur].
Defined.

End EngineWitnesses.

Section SagaWitnesses.

Import SagaEngine SagaInvariants SagaScenarios MoreSagaScenarios.

Lemma startSaga_thrown_is_failed_witness :
  status (heap (snd (startSaga second_fails compensation_raises saga_ids order_saga
                               emptyData fresh)) 0) = failed.
Proof.
  destruct (startSaga_thrown_is_failed
              second_fails compensation_raises saga_ids order_saga emptyData fresh
              "release failed"
              (snd (startSaga second_fails compensation_raises saga_ids order_saga
                              emptyData fresh))) as [Hst _].
  - vm_compute. reflexivity.
  - exact Hst.
Defined.

Lemma handleStepFailure_compensates_witness :
  let run := handleStepFailure compensation_ok "saga_1" order_saga 0 charge
                               "card declined" compensating_engine in
  fst run = Returned tt ∧
  compensationCalls (snd run) = ["inventory.release"] ∧
  status (heap (snd run) 0) = compensated.
Proof.
  destruct (handleStepFailure_compensates
              compensation_ok "saga_1" order_saga 0 charge "card declined"
              compensating_engine) as (Hres & Hcalls & Hst & _).
  - reflexivity.
  - split; [exact Hres|]. split; [rewrite Hcalls; reflexivity|exact Hst].
Defined.

Lemma handleStepFailure_aborts_on_first_failure_witness :
  let run := handleStepFailure compensation_raises "saga_1" order_saga 0 charge
                               "card declined" compensating_engine in
  fst run = Thrown "release failed" ∧
  compensationCalls (snd run) = ["inventory.release"] ∧
  status (heap (snd run) 0) = compensation_failed.
Proof.
  destruct (handleStepFailure_aborts_on_first_failure
              compensation_raises "saga_1" order_saga 0 charge "card declined"
              "release failed" "inventory.release" [] compensating_engine)
    as (Hres & Hcalls & Hst & _); [reflexivity|reflexivity|].
  split; [exact Hres|]. split; [exact Hcalls|exact Hst].
Defined.

Lemma startSaga_completes_witness :
  let run := startSaga always_resolves compensation_ok saga_ids order_saga
                       emptyData fresh in
  fst run = Returned ("saga_1", 0) ∧
  status (heap (snd run) 0) = completed ∧
  completedSteps (heap (snd run) 0) = ["step1"; "step2"; "step3"].
Proof.
  destruct (startSaga_completes always_resolves compensation_ok saga_ids order_saga
              emptyData fresh) as (Hres & Hst & Hdone & _).
  - intros n step d. exists emptyData. reflexivity.
  - intros before step after E. cbn in E.
    destruct before as [|s1 [|s2 [|s3 [|s4 before]]]]; cbn in E;
      inversion E; subst; reflexivity.
  - split; [exact Hres|]. split; [exact Hst|exact Hdone].
Defined.

Lemma startSaga_first_step_blocked_witness :
  let run := startSaga always_resolves compensation_ok saga_ids misordered_saga
                       emptyData fresh in
  stepCalls (snd run) = [] ∧ completedSteps (heap (snd run) 0) = [].
Proof.
  destruct (startSaga_first_step_blocked
              always_resolves compensation_ok saga_ids misordered_saga emptyData
              charge [reserve] "step1" [] fresh) as (Hcalls & Hdone & _);
    [reflexivity|reflexivity|].
  split; [exact Hcalls|exact Hdone].
Defined.

End SagaWitnesses.

(* ===================================================================== *)
(** ** What validation accepts *)
(* ===================================================================== *)

Section ValidationFacts.

Import WorkflowRegistry.

Lemma one_error_nil (b : bool) (message : string) :
  (if b then [message] else []) = [] ↔ b = false.
Proof. by destruct b. Qed.

Lemma concat_map_nil {A} (f : A → list string) (l : list A) :
  concat (map f l) = [] ↔ Forall (λ x, f x = []) l.
Proof.
  induction l as [|x l IH]; cbn.
  - split; [constructor|done].
  - rewrite app_nil, IH, Forall_cons. done.
Qed.

Lemma falsy_false {A} (o : option A) : falsy o = false ↔ is_Some o.
Proof. destruct o; cbn; [by split; eauto|]. split; [done|by intros [? ?]]. Qed.

(** [trim] empties a string of white space of any kind, from the ASCII
    blanks to the no-break space, the line and paragraph separators, the
    ideographic space and the byte order mark, alone or mixed; a string
    with one other character is not blank, even when it shares bytes with
    a white space. *)
Lemma missing_blank_strings :
  let utf8 := fold_right (λ b, String (ascii_of_N b)) EmptyString in
  Forall (λ s, missing (utf8 s) = true)
         [ []; [0x20]; [0x09; 0x0A; 0x0B; 0x0C; 0x0D]; [0xC2; 0xA0];
           [0xE1; 0x9A; 0x80]; [0xE2; 0x80; 0x80]; [0xE2; 0x80; 0x8A];
           [0xE2; 0x80; 0xA8]; [0xE2; 0x80; 0xA9]; [0xE2; 0x80; 0xAF];
           [0xE2; 0x81; 0x9F]; [0xE3; 0x80; 0x80]; [0xEF; 0xBB; 0xBF];
           [0x20; 0xC2; 0xA0; 0x09; 0xE3; 0x80; 0x80; 0xEF; 0xBB; 0xBF; 0x0A] ]%N ∧
  Forall (λ s, missing (utf8 s) = false)
         [ [0x61]; [0x20; 0x61; 0x20]; [0xC2; 0xA0; 0x61]; [0xC2; 0x85];
           [0xC2; 0xA9]; [0xE2; 0x80; 0x8B]; [0xE2; 0x80; 0x8C];
           [0xE1; 0xA0; 0x8E]; [0xE2; 0x81; 0xA0]; [0xE3; 0x80; 0x81];
           [0xC3; 0xA0]; [0xE2; 0x80; 0xA8; 0x78] ]%N.
Proof. cbn [fold_right]. split; repeat constructor. Qed.

(** X7.  [validateWorkflow] accepts exactly the definitions whose name and
    version are not blank, that have at least one trigger and one step,
    whose triggers have non-blank [type] and [eventType], and whose steps
    have non-blank [id] and [name] and a truthy [type] and [config].  Blank
    means empty or made only of the white space that [trim] removes.  The
    shape of the step graph (cycles, orphans, references to missing steps)
    never makes a definition invalid. *)
Theorem validateWorkflow_accepts workflow :
  isValid (validateWorkflow workflow) = true ↔
  missing (wf_name workflow) = false ∧
  missing (wf_version workflow) = false ∧
  triggers workflow ≠ [] ∧
  steps workflow ≠ [] ∧
  Forall (λ t, missing (trigger_type t) = false ∧ missing (eventType t) = false)
         (triggers workflow) ∧
  Forall (λ s, missing (step_id s) = false ∧ missing (step_name s) = false ∧
               is_Some (step_type s) ∧ is_Some (step_config s))
         (steps workflow).
Proof.
  unfold validateWorkflow, hasCircularDependencies. cbn [isValid].
  rewrite bool_decide_eq_true, !app_nil, !one_error_nil, !concat_map_nil.
  assert (Ht : Forall (λ x, trigger_errors x = []) (triggers workflow) ↔
               Forall (λ t, missing (trigger_type t) = false ∧
                            missing (eventType t) = false) (triggers workflow)).
  { apply Forall_proper; [|done]. intros t. unfold trigger_errors.
    by rewrite app_nil, !one_error_nil. }
  assert (Hs : Forall (λ x, step_errors x = []) (steps workflow) ↔
               Forall (λ s, missing (step_id s) = false ∧
                            missing (step_name s) = false ∧
                            is_Some (step_type s) ∧ is_Some (step_config s))
                      (steps workflow)).
  { apply Forall_proper; [|done]. intros s. unfold step_errors.
    by rewrite !app_nil, !one_error_nil, !falsy_false. }
  rewrite Ht, Hs.
  destruct (triggers workflow), (steps workflow); naive_solver.
Qed.

Lemma NoDup_set_order l : NoDup (set_order l).
Proof.
  unfold set_order.
  assert (G : ∀ acc, NoDup acc →
                     NoDup (fold_left (λ acc x, if includes acc x then acc else acc ++ [x])
                                      l acc)).
  { induction l as [|x l IH]; intros acc Hacc; cbn [fold_left]; [done|].
    apply IH. unfold includes. case_bool_decide; [done|].
    apply NoDup_app. split; [done|]. split; [|apply NoDup_singleton].
    intros y Hy Hx. apply list_elem_of_singleton in Hx as ->. done. }
  apply G. constructor.
Qed.

(** X9.  [findOrphanedSteps] reports each orphaned id once, even when several
    steps share it. *)
Theorem findOrphanedSteps_NoDup workflow : NoDup (findOrphanedSteps workflow).
Proof.
  unfold findOrphanedSteps. apply NoDup_ListNoDup, List.NoDup_filter, NoDup_ListNoDup.
  apply NoDup_set_order.
Qed.

End ValidationFacts.
